(** * The jukebox playback controller ([scripts/player.js])

    A shallow embedding of the [Player] class together with the part of its
    browser environment that the class talks to: the audio element it owns,
    the promises returned by [audio.play()], the timers set with
    [setTimeout], the events dispatched on [document], the console and the
    [#error-msg] element.

    JavaScript numbers that are only compared (the volume) are IEEE doubles,
    taken from [SpecFloat]; song indices are integers. *)

From Stdlib Require Import ZArith List Ascii String Bool Lia.
From Stdlib Require Import Floats.SpecFloat.
Import ListNotations.
Local Open Scope string_scope.
Local Open Scope Z_scope.

(** ** JavaScript numbers *)

Module JS.

Definition number := spec_float.

Definition NaN : number := S754_nan.
Definition zero : number := S754_zero false.
Definition neg_zero : number := S754_zero true.
(** [1.0] as a binary64 value: mantissa [2^52], exponent [-52]. *)
Definition one : number := S754_finite false 4503599627370496 (-52).
Definition infinity : number := S754_infinity false.
Definition neg_infinity : number := S754_infinity true.

Definition is_nan (x : number) : bool :=
  match x with S754_nan => true | _ => false end.

Definition is_pos_zero (x : number) : bool :=
  match x with S754_zero false => true | _ => false end.

Definition is_neg_zero (x : number) : bool :=
  match x with S754_zero true => true | _ => false end.

(** [Math.max(...args)] of ECMAScript: starts from [-Infinity], any [NaN]
    argument gives [NaN], and [+0] counts as larger than [-0]. *)
Fixpoint max_from (highest : number) (args : list number) : number :=
  match args with
  | [] => highest
  | x :: rest =>
      if is_nan x then NaN
      else if is_pos_zero x && is_neg_zero highest then max_from x rest
      else if SFltb highest x then max_from x rest
      else max_from highest rest
  end.

Definition Math_max (args : list number) : number :=
  max_from neg_infinity args.

(** [Math.min(...args)]: starts from [+Infinity], [-0] counts as smaller
    than [+0]. *)
Fixpoint min_from (lowest : number) (args : list number) : number :=
  match args with
  | [] => lowest
  | x :: rest =>
      if is_nan x then NaN
      else if is_neg_zero x && is_pos_zero lowest then min_from x rest
      else if SFltb x lowest then min_from x rest
      else min_from lowest rest
  end.

Definition Math_min (args : list number) : number :=
  min_from infinity args.

(** [ToNumber] on a value that is [null] or an integer: [null] is [0]. *)
Definition to_number (v : option Z) : Z :=
  match v with Some i => i | None => 0 end.

(** [haystack.includes(needle)] *)
Definition includes (needle haystack : string) : bool :=
  match String.index 0 needle haystack with
  | Some _ => true
  | None => false
  end.

End JS.

(** The closed interval [[0,1]] on doubles, with IEEE comparisons
    (so [NaN] is outside). *)
Definition in_unit_interval (x : JS.number) : bool :=
  SFleb JS.zero x && SFleb x JS.one.

(** ** Data *)

Record Song := mkSong { title : string; artist : string; file : string }.

(** The audio element, as far as the player uses it.  [id] stands for the
    identity of the JavaScript object. *)
Module Audio.

Record t := mk {
  id : nat;
  src : string;
  volume : JS.number;
  currentTime : JS.number;
  paused : bool
}.

(** [new Audio(file)] *)
Definition create (n : nat) (f : string) : t :=
  mk n f JS.one JS.zero true.

(** [element.volume = v] as a plain field write, which is what the audio
    element of the test suite does.  The element of a browser refuses a
    [NaN] and a value outside [[0,1]]; the statements that write a level
    the caller chooses say which levels they cover. *)
Definition set_volume (v : JS.number) (a : t) : t :=
  mk (id a) (src a) v (currentTime a) (paused a).

Definition set_currentTime (c : JS.number) (a : t) : t :=
  mk (id a) (src a) (volume a) c (paused a).

Definition set_paused (b : bool) (a : t) : t :=
  mk (id a) (src a) (volume a) (currentTime a) b.

End Audio.

(** The fields set by the constructor of [Player]. *)
Record Player := mkPlayer {
  songs : list Song;
  audio : option Audio.t;
  currentIndex : option Z;
  isPlaying : bool;
  isMuted : bool;
  volume : JS.number;
  isSequence : bool
}.

(** What runs when the promise of an [audio.play()] call settles: the
    [then]/[catch] pair of [play] (which captured [index] and [song]) or
    the pair of [resume]. *)
Inductive Continuation :=
| PlayStarted (index : Z) (song : Song)
| Resumed.

Record Promise := mkPromise { p_audio : nat; p_then : Continuation }.

(** The two callbacks handed to [setTimeout] by [handlePlaybackError]. *)
Inductive TimerAction :=
| ClearErrorMsg (song : Song)
| ErrorSkip.

Record Timer := mkTimer { due : Z; action : TimerAction }.

Inductive DomEvent :=
| SongChange (index : Z) (song : Song)
| PlaybackStopped.

Inductive LogEntry :=
| ErrInvalidIndex (index : Z)
| ErrAudioError
| ErrPlaybackFailed
| ErrResumeFailed
| WarnNoSongs
| LogSkipping (song_title : string)
| LogEndOfPlaylist.

(** The player and its surroundings.  [detached] collects the audio
    elements the player has let go of; [clock] is in milliseconds;
    [errorMsg] is the text of the [#error-msg] element, [None] when the
    page has no such element. *)
Record World := mkWorld {
  self : Player;
  nextAudio : nat;
  detached : list Audio.t;
  promises : list Promise;
  timers : list Timer;
  clock : Z;
  dispatched : list DomEvent;
  console : list LogEntry;
  errorMsg : option string
}.

(** *** Field updates *)

Definition set_audio (a : option Audio.t) (p : Player) : Player :=
  mkPlayer (songs p) a (currentIndex p) (isPlaying p) (isMuted p) (volume p)
           (isSequence p).

Definition set_currentIndex (i : option Z) (p : Player) : Player :=
  mkPlayer (songs p) (audio p) i (isPlaying p) (isMuted p) (volume p)
           (isSequence p).

Definition set_isPlaying (b : bool) (p : Player) : Player :=
  mkPlayer (songs p) (audio p) (currentIndex p) b (isMuted p) (volume p)
           (isSequence p).

Definition set_isMuted (b : bool) (p : Player) : Player :=
  mkPlayer (songs p) (audio p) (currentIndex p) (isPlaying p) b (volume p)
           (isSequence p).

Definition set_volume (v : JS.number) (p : Player) : Player :=
  mkPlayer (songs p) (audio p) (currentIndex p) (isPlaying p) (isMuted p) v
           (isSequence p).

Definition set_isSequence (b : bool) (p : Player) : Player :=
  mkPlayer (songs p) (audio p) (currentIndex p) (isPlaying p) (isMuted p)
           (volume p) b.

(** Apply [f] to the audio element the player holds, if any
    ([if (this.audio) { this.audio.x = ... }]). *)
Definition on_audio (f : Audio.t -> Audio.t) (p : Player) : Player :=
  match audio p with
  | Some a => set_audio (Some (f a)) p
  | None => p
  end.

Definition update (f : Player -> Player) (w : World) : World :=
  mkWorld (f (self w)) (nextAudio w) (detached w) (promises w) (timers w)
          (clock w) (dispatched w) (console w) (errorMsg w).

Definition set_nextAudio (n : nat) (w : World) : World :=
  mkWorld (self w) n (detached w) (promises w) (timers w) (clock w)
          (dispatched w) (console w) (errorMsg w).

Definition set_detached (l : list Audio.t) (w : World) : World :=
  mkWorld (self w) (nextAudio w) l (promises w) (timers w) (clock w)
          (dispatched w) (console w) (errorMsg w).

Definition set_promises (l : list Promise) (w : World) : World :=
  mkWorld (self w) (nextAudio w) (detached w) l (timers w) (clock w)
          (dispatched w) (console w) (errorMsg w).

Definition set_timers (l : list Timer) (w : World) : World :=
  mkWorld (self w) (nextAudio w) (detached w) (promises w) l (clock w)
          (dispatched w) (console w) (errorMsg w).

Definition set_clock (t : Z) (w : World) : World :=
  mkWorld (self w) (nextAudio w) (detached w) (promises w) (timers w) t
          (dispatched w) (console w) (errorMsg w).

(** [errorMsg.textContent = m].  The page of [main.js] also watches this
    element and empties it five seconds after a change; that watcher only
    ever empties the text and is not part of the world here. *)
Definition set_errorMsg (m : option string) (w : World) : World :=
  mkWorld (self w) (nextAudio w) (detached w) (promises w) (timers w)
          (clock w) (dispatched w) (console w) m.

(** [document.dispatchEvent(e)] *)
Definition dispatchEvent (e : DomEvent) (w : World) : World :=
  mkWorld (self w) (nextAudio w) (detached w) (promises w) (timers w)
          (clock w) (dispatched w ++ [e]) (console w) (errorMsg w).

(** [console.error], [console.warn], [console.log] *)
Definition log (e : LogEntry) (w : World) : World :=
  mkWorld (self w) (nextAudio w) (detached w) (promises w) (timers w)
          (clock w) (dispatched w) (console w ++ [e]) (errorMsg w).

(** [setTimeout(action, delay)] *)
Definition setTimeout (act : TimerAction) (delay : Z) (w : World) : World :=
  set_timers (timers w ++ [mkTimer (clock w + delay) act]) w.

(** ** The constructor *)

Definition new_Player (songList : list Song) : Player :=
  mkPlayer songList None None false false JS.one false.

(** A page freshly loaded with the player constructed; [msg] is the
    initial state of the [#error-msg] element. *)
Definition init (songList : list Song) (msg : option string) : World :=
  mkWorld (new_Player songList) 0 [] [] [] 0 [] [] msg.

(** ** Methods *)

Definition songs_length (w : World) : Z :=
  Z.of_nat (List.length (songs (self w))).

(** [this.audio.pause(); this.audio.currentTime = 0; this.audio = null;
    this.isPlaying = false;] for the element [a] the player holds;
    [released a] is the element left behind. *)
Definition released (a : Audio.t) : Audio.t :=
  Audio.set_currentTime JS.zero (Audio.set_paused true a).

Definition release (a : Audio.t) (w : World) : World :=
  update (set_isPlaying false)
    (update (set_audio None) (set_detached (detached w ++ [released a]) w)).

Definition play (index : Z) (fromSequence : bool) (w : World) : World :=
  if (index <? 0) || (index >=? songs_length w) then
    log (ErrInvalidIndex index) w
  else
    let w1 :=
      match audio (self w) with
      | Some a =>
          let wasSequence := isSequence (self w) && fromSequence in
          let w' := release a w in
          if negb wasSequence then update (set_isSequence false) w' else w'
      | None => w
      end in
    let w2 :=
      if negb fromSequence then update (set_isSequence true) w1 else w1 in
    match nth_error (songs (self w2)) (Z.to_nat index) with
    | None => w2 (* not reached: [index] was validated above *)
    | Some song =>
        let a := Audio.create (nextAudio w2) (file song) in
        let w3 := set_nextAudio (S (nextAudio w2)) w2 in
        let w4 := update (set_currentIndex (Some index)) w3 in
        let level :=
          if isMuted (self w4) then JS.zero else volume (self w4) in
        let a := Audio.set_volume level a in
        (* the 'error' and 'ended' listeners are [on_error] and [on_ended]
           below; [this.audio.play()] unpauses and leaves a promise *)
        let a := Audio.set_paused false a in
        set_promises
          (promises w4 ++ [mkPromise (Audio.id a) (PlayStarted index song)])
          (update (set_audio (Some a)) w4)
    end.

Definition pause (w : World) : World :=
  match audio (self w) with
  | Some _ =>
      if isPlaying (self w) then
        update (set_isPlaying false)
          (update (on_audio (Audio.set_paused true)) w)
      else w
  | None => w
  end.

Definition resume (w : World) : World :=
  match audio (self w) with
  | Some a =>
      if negb (isPlaying (self w)) then
        set_promises (promises w ++ [mkPromise (Audio.id a) Resumed])
          (update (on_audio (Audio.set_paused false)) w)
      else w
  | None => w
  end.

Definition stop (w : World) : World :=
  match audio (self w) with
  | Some a =>
      dispatchEvent PlaybackStopped
        (update (set_isSequence false)
           (update (set_currentIndex None) (release a w)))
  | None => w
  end.

Definition setVolume (v : JS.number) (w : World) : World :=
  let w1 :=
    update (set_volume (JS.Math_max [JS.zero; JS.Math_min [JS.one; v]])) w in
  if negb (isMuted (self w1)) then
    update (on_audio (Audio.set_volume (volume (self w1)))) w1
  else w1.

Definition mute (w : World) : World :=
  update (on_audio (Audio.set_volume JS.zero))
    (update (set_isMuted true) w).

Definition unmute (w : World) : World :=
  let w1 := update (set_isMuted false) w in
  update (on_audio (Audio.set_volume (volume (self w1)))) w1.

Definition toggleMute (w : World) : World :=
  if isMuted (self w) then unmute w else mute w.

Definition playAll (w : World) : World :=
  if songs_length w =? 0 then log WarnNoSongs w
  else play 0 true (update (set_isSequence true) w).

(** ** Event listeners and callbacks *)

Definition dquote : string := String "034"%char EmptyString.

(** The text put into [#error-msg]. *)
Definition error_text (song : Song) : string :=
  ("Error: Unable to play " ++ dquote ++ title song ++ dquote ++ " by "
     ++ artist song)%string.

Definition handlePlaybackError (song : Song) (w : World) : World :=
  let w1 :=
    match errorMsg w with
    | Some _ =>
        setTimeout (ClearErrorMsg song) 5000
          (set_errorMsg (Some (error_text song)) w)
    | None => w
    end in
  if isSequence (self w1)
     && (JS.to_number (currentIndex (self w1)) <? songs_length w1 - 1)
  then setTimeout ErrorSkip 500 (log (LogSkipping (title song)) w1)
  else if isSequence (self w1)
  then stop (update (set_isSequence false) (log LogEndOfPlaylist w1))
  else w1.

(** The ['error'] listener that [play] attaches to the element it
    creates for [song]. *)
Definition on_error (song : Song) (w : World) : World :=
  handlePlaybackError song (log ErrAudioError w).

(** The ['ended'] listener. *)
Definition on_ended (w : World) : World :=
  let w1 := update (set_isPlaying false) w in
  if isSequence (self w1)
     && (JS.to_number (currentIndex (self w1)) <? songs_length w1 - 1)
  then play (JS.to_number (currentIndex (self w1)) + 1) true w1
  else update (set_isSequence false) w1.

(** The body of a [setTimeout] callback. *)
Definition fire (act : TimerAction) (w : World) : World :=
  match act with
  | ErrorSkip => play (JS.to_number (currentIndex (self w)) + 1) true w
  | ClearErrorMsg song =>
      match errorMsg w with
      | Some text =>
          if JS.includes (title song) text
          then set_errorMsg (Some "") w
          else w
      | None => w
      end
  end.

(** The [then] ([ok = true]) or [catch] ([ok = false]) callback of a
    promise returned by [audio.play()]. *)
Definition settled (k : Continuation) (ok : bool) (w : World) : World :=
  match k, ok with
  | PlayStarted index song, true =>
      dispatchEvent (SongChange index song) (update (set_isPlaying true) w)
  | PlayStarted _ _, false =>
      update (set_isPlaying false) (log ErrPlaybackFailed w)
  | Resumed, true => update (set_isPlaying true) w
  | Resumed, false => log ErrResumeFailed w
  end.

(** ** The event loop *)

Fixpoint remove_nth {A : Type} (n : nat) (l : list A) : list A :=
  match n, l with
  | _, [] => []
  | O, _ :: r => r
  | S m, x :: r => x :: remove_nth m r
  end.

(** The audio subsystem settles the [n]-th pending promise. *)
Definition settle (n : nat) (ok : bool) (w : World) : World :=
  match nth_error (promises w) n with
  | Some pr =>
      settled (p_then pr) ok (set_promises (remove_nth n (promises w)) w)
  | None => w
  end.

(** Timers run in the order of their due time, and in the order they were
    set when the due times agree. *)
Fixpoint insert_timer (t : Timer) (l : list Timer) : list Timer :=
  match l with
  | [] => [t]
  | u :: r => if due t <? due u then t :: l else u :: insert_timer t r
  end.

Definition by_due (l : list Timer) : list Timer :=
  fold_left (fun acc t => insert_timer t acc) l [].

Definition is_due (t : Z) (x : Timer) : bool := due x <=? t.

(** Run the callbacks of the timers [l], in this order. *)
Definition fire_all (l : list Timer) (w : World) : World :=
  fold_left (fun w' x => fire (action x) w') l w.

(** The timers of [w] that run when [ms] milliseconds pass. *)
Definition ready (ms : Z) (w : World) : list Timer :=
  filter (is_due (clock w + Z.max 0 ms)) (timers w).

(** [ms] milliseconds pass with no other event: every timer that falls due
    runs.  No callback of this program sets a timer, so the due ones can be
    taken out at once. *)
Definition advance (ms : Z) (w : World) : World :=
  let t := clock w + Z.max 0 ms in
  let later := filter (fun x => negb (is_due t x)) (timers w) in
  fire_all (by_due (ready ms w)) (set_clock t (set_timers later w)).

(** Everything that can happen to the player: a method call, an event of
    the audio element, a promise settling, time passing. *)
Inductive Op :=
| OpPlay (index : Z) (fromSequence : bool)
| OpPause
| OpResume
| OpStop
| OpSetVolume (v : JS.number)
| OpMute
| OpUnmute
| OpToggleMute
| OpPlayAll
| OpEnded
| OpError (song : Song)
| OpSettle (n : nat) (ok : bool)
| OpAdvance (ms : Z).

Definition step (o : Op) (w : World) : World :=
  match o with
  | OpPlay index fromSequence => play index fromSequence w
  | OpPause => pause w
  | OpResume => resume w
  | OpStop => stop w
  | OpSetVolume v => setVolume v w
  | OpMute => mute w
  | OpUnmute => unmute w
  | OpToggleMute => toggleMute w
  | OpPlayAll => playAll w
  | OpEnded => on_ended w
  | OpError song => on_error song w
  | OpSettle n ok => settle n ok w
  | OpAdvance ms => advance ms w
  end.

Definition run (ops : list Op) (w : World) : World :=
  fold_left (fun w' o => step o w') ops w.

(** [getCurrentSong] and [getPlaybackState]; [None] stands for [null] and
    for the [undefined] that [songs[i]] gives at a negative [i]. *)
Definition getCurrentSong (p : Player) : option Song :=
  match currentIndex p with
  | Some i =>
      if i <? Z.of_nat (List.length (songs p))
      then (if 0 <=? i then nth_error (songs p) (Z.to_nat i) else None)
      else None
  | None => None
  end.

Record PlaybackState := mkPlaybackState {
  st_isPlaying : bool;
  st_currentIndex : option Z;
  st_volume : JS.number;
  st_isMuted : bool;
  st_isSequence : bool;
  st_currentSong : option Song
}.

Definition getPlaybackState (p : Player) : PlaybackState :=
  mkPlaybackState (isPlaying p) (currentIndex p) (volume p) (isMuted p)
                  (isSequence p) (getCurrentSong p).

(** ** Sample data of the test suite *)

Definition song1 : Song := mkSong "Song 1" "Artist 1" "song1.mp3".
Definition song2 : Song := mkSong "Song 2" "Artist 2" "song2.mp3".
Definition song3 : Song := mkSong "Song 3" "Artist 3" "song3.mp3".
Definition mockSongs : list Song := [song1; song2; song3].

(** The page of the tests: three songs and an empty [#error-msg]. *)
Definition page : World := init mockSongs (Some "").

(** ** Notions used in the statements *)

(** [index] is an index of the song list. *)
Definition valid_index (index : Z) (w : World) : Prop :=
  0 <= index < songs_length w.

(** The element [play] creates in [w] for [song]. *)
Definition started (w : World) (song : Song) : Audio.t :=
  Audio.mk (nextAudio w) (file song)
           (if isMuted (self w) then JS.zero else volume (self w))
           JS.zero false.

(** The expression [Math.max(0, Math.min(1, v))] of [setVolume]. *)
Definition clamp (v : JS.number) : JS.number :=
  JS.Math_max [JS.zero; JS.Math_min [JS.one; v]].

(** [1.5] as a binary64 value. *)
Definition three_halves : JS.number :=
  S754_finite false 6755399441055744 (-52).

(** What [pause] and [resume] may not touch: every field of the player
    but [isPlaying], and of the audio element everything but [paused];
    no element is created or let go. *)
Definition same_but_playing (w w' : World) : Prop :=
  songs (self w') = songs (self w) /\
  currentIndex (self w') = currentIndex (self w) /\
  volume (self w') = volume (self w) /\
  isMuted (self w') = isMuted (self w) /\
  isSequence (self w') = isSequence (self w) /\
  option_map Audio.id (audio (self w')) =
    option_map Audio.id (audio (self w)) /\
  option_map (Audio.set_paused true) (audio (self w')) =
    option_map (Audio.set_paused true) (audio (self w)) /\
  nextAudio w' = nextAudio w /\
  detached w' = detached w.

(** The player holds an audio element exactly when it has a current
    index; sequence mode is on only while it holds one; the current index
    is an index of the song list. *)
Record consistent (w : World) : Prop := mkConsistent {
  handle_iff_index :
    audio (self w) = None <-> currentIndex (self w) = None;
  sequence_has_handle :
    isSequence (self w) = true -> audio (self w) <> None;
  index_in_range :
    forall i, currentIndex (self w) = Some i -> valid_index i w
}.





(** [k] consecutive ['ended'] events. *)
Definition ended_times (k : nat) (w : World) : World :=
  Nat.iter k on_ended w.

(** The timer is an error skip. *)
Definition is_skip (t : Timer) : bool :=
  match action t with
  | ErrorSkip => true
  | ClearErrorMsg _ => false
  end.

(** The number of error skips waiting in [l]. *)
Definition skips (l : list Timer) : nat := List.length (filter is_skip l).

(** Two worlds with the same player and the same allocation counter:
    what [play] does to the player depends on nothing else. *)
Definition same_core (w w' : World) : Prop :=
  self w = self w' /\ nextAudio w = nextAudio w'.

(** ** Further notions: what the player keeps true *)

(** The audio element the player holds was created for the song at
    [currentIndex]. *)
Definition plays_current (w : World) : Prop :=
  forall a, audio (self w) = Some a ->
    exists i s,
      currentIndex (self w) = Some i /\
      0 <= i /\
      nth_error (songs (self w)) (Z.to_nat i) = Some s /\
      Audio.src a = file s.

(** The volume of the audio element is the effective level
    [isMuted ? 0 : volume]. *)
Definition level_applied (w : World) : Prop :=
  forall a, audio (self w) = Some a ->
    Audio.volume a = if isMuted (self w) then JS.zero else volume (self w).

Definition volume_in_range (w : World) : Prop :=
  in_unit_interval (volume (self w)) = true.



(** The operation does not hand [NaN] to [setVolume]. *)
Definition sets_a_number (o : Op) : bool :=
  match o with
  | OpSetVolume v => negb (JS.is_nan v)
  | _ => true
  end.

(** The position of the promise that the next [audio.play()] will leave. *)
Definition next_promise (w : World) : nat := List.length (promises w).

(** The operation passes [setVolume] an argument that [allowed] accepts. *)
Definition op_allowed (allowed : JS.number -> bool) (o : Op) : bool :=
  match o with
  | OpSetVolume v => allowed v
  | _ => true
  end.


(** What a timer callback does to the text of [#error-msg]. *)
Definition fire_text (act : TimerAction) (m : option string)
  : option string :=
  match act, m with
  | ClearErrorMsg song, Some text =>
      if JS.includes (title song) text then Some "" else m
  | _, _ => m
  end.

(** * The page controls ([scripts/controls.js]) *)

(** ** Elements *)

(** [element.classList]: a list of tokens without repetition. *)
Definition has_class (c : string) (l : list string) : bool :=
  existsb (String.eqb c) l.

Definition class_add (c : string) (l : list string) : list string :=
  if has_class c l then l else l ++ [c].

Definition class_remove (c : string) (l : list string) : list string :=
  filter (fun x => negb (String.eqb c x)) l.

(** A button, as far as the controls write to it. *)
Record Button := mkButton {
  textContent : string;
  classList : list string;
  ariaLabel : string
}.

(** One entry of [#song-list]: the [li] with its [role] and
    [aria-selected] attributes and the button inside it with its [role].
    [data_index] is [button.dataset.index]; the DOM keeps it as the decimal
    string of the number written to it and [Number] reads the number
    back. *)
Record SongRow := mkSongRow {
  li_role : string;
  aria_selected : bool;
  data_index : Z;
  button_role : string;
  button : Button
}.

(** The [#current-song] element. *)
Record Status := mkStatus { status_text : string; status_label : string }.

(** ** [renderSongList] *)

Definition song_button (index : Z) (song : Song) : Button :=
  mkButton ("â–¶ " ++ title song ++ " â€” " ++ artist song)
           ["song-button"]
           ("Play " ++ title song ++ " by " ++ artist song).

Fixpoint render_from (index : Z) (songList : list Song) : list SongRow :=
  match songList with
  | [] => []
  | song :: rest =>
      mkSongRow "option" false index "button" (song_button index song)
        :: render_from (index + 1) rest
  end.

(** The new content of the container; what it held before is dropped
    ([container.innerHTML = '']). *)
Definition renderSongList (container : list SongRow) (songList : list Song)
  : list SongRow :=
  render_from 0 songList.

(** ** [handleSongButtonKeydown] *)

(** [array.indexOf(x)], counting from [k]. *)
Fixpoint indexOf_from (k : Z) (x : nat) (l : list nat) : Z :=
  match l with
  | [] => -1
  | y :: rest => if Nat.eqb x y then k else indexOf_from (k + 1) x rest
  end.

Definition indexOf (x : nat) (l : list nat) : Z := indexOf_from 0 x l.

(** [array[i]], [None] for [undefined]. *)
Definition item {A : Type} (l : list A) (i : Z) : option A :=
  if i <? 0 then None else nth_error l (Z.to_nat i).

Inductive KeyEffect :=
| FocusButton (b : nat)
| ClickTarget
| NoEffect.

Record KeyHandled := mkKeyHandled {
  defaultPrevented : bool;
  effect : KeyEffect
}.

(** [if (songButtons[targetIndex]) songButtons[targetIndex].focus()] *)
Definition focus_item (songButtons : list nat) (targetIndex : Z)
  : KeyHandled :=
  mkKeyHandled true
    (match item songButtons targetIndex with
     | Some b => FocusButton b
     | None => NoEffect
     end).

(** The handler, for the key [key] pressed on the element [target] while
    [songButtons] are the elements of class [song-button], in document
    order.  Elements are named by numbers. *)
Definition handleSongButtonKeydown
           (key : string) (songButtons : list nat) (target : nat)
  : KeyHandled :=
  let currentIndex := indexOf target songButtons in
  let len := Z.of_nat (List.length songButtons) in
  if String.eqb key "ArrowDown" then
    focus_item songButtons
      (if currentIndex <? len - 1 then currentIndex + 1 else 0)
  else if String.eqb key "ArrowUp" then
    focus_item songButtons
      (if currentIndex >? 0 then currentIndex - 1 else len - 1)
  else if String.eqb key "Home" then focus_item songButtons 0
  else if String.eqb key "End" then focus_item songButtons (len - 1)
  else if String.eqb key "Enter" || String.eqb key " " then
    mkKeyHandled true ClickTarget
  else mkKeyHandled false NoEffect.

(** ** [initSongHighlighting] *)

Definition updateCurrentSongStatus (song : option Song) (st : option Status)
  : option Status :=
  match st with
  | None => None
  | Some _ =>
      match song with
      | Some s =>
          Some (mkStatus
                  ("Now playing: " ++ title s ++ " by " ++ artist s)
                  ("Currently playing " ++ title s ++ " by " ++ artist s))
      | None => Some (mkStatus " " "No song currently playing")
      end
  end.

Definition set_classes (f : list string -> list string) (r : SongRow)
  : SongRow :=
  mkSongRow (li_role r) (aria_selected r) (data_index r) (button_role r)
            (mkButton (textContent (button r)) (f (classList (button r)))
                      (ariaLabel (button r))).

Definition set_selected (b : bool) (r : SongRow) : SongRow :=
  mkSongRow (li_role r) b (data_index r) (button_role r) (button r).

(** Every button loses the class [active], every [li] gets
    [aria-selected = false]. *)
Definition clear_rows (rows : list SongRow) : list SongRow :=
  map (fun r => set_selected false (set_classes (class_remove "active") r))
      rows.

(** The first button with [data-index = index] gets the class [active]
    and its [li] [aria-selected = true]; the result says whether there was
    one. *)
Fixpoint activate (index : Z) (rows : list SongRow)
  : list SongRow * bool :=
  match rows with
  | [] => ([], false)
  | r :: rest =>
      if data_index r =? index then
        (set_selected true (set_classes (class_add "active") r) :: rest,
         true)
      else
        let (rest', found) := activate index rest in (r :: rest', found)
  end.

Definition updateActiveSong
           (index : option Z) (song : option Song)
           (rows : list SongRow) (st : option Status)
  : list SongRow * option Status :=
  let rows1 := clear_rows rows in
  match index with
  | Some i =>
      let (rows2, found) := activate i rows1 in
      if found then (rows2, updateCurrentSongStatus song st)
      else (rows2, st)
  | None => (rows1, updateCurrentSongStatus None st)
  end.

(** The two listeners of [initSongHighlighting], on an event dispatched by
    the player. *)
Definition on_dom_event (e : DomEvent) (ui : list SongRow * option Status)
  : list SongRow * option Status :=
  match e with
  | SongChange index song =>
      updateActiveSong (Some index) (Some song) (fst ui) (snd ui)
  | PlaybackStopped => updateActiveSong None None (fst ui) (snd ui)
  end.

Definition is_active (r : SongRow) : bool :=
  has_class "active" (classList (button r)).

(** ** [initPlayAllButton] *)

Definition updatePlayAllButton (p : Player) (b : Button) : Button :=
  if st_isSequence (getPlaybackState p) then
    mkButton "â¸ï¸ Stop All" (class_add "playing" (classList b))
             "Stop sequential playback"
  else
    mkButton "â–¶ï¸ Play All" (class_remove "playing" (classList b))
             "Play all songs in sequence".

(** The click listener of [#play-all]. *)
Definition playAll_click (w : World) (b : Button) : World * Button :=
  let w' :=
    if st_isSequence (getPlaybackState (self w)) then stop w else playAll w in
  (w', updatePlayAllButton (self w') b).

(** ** [initMuteButton] *)

Definition updateMuteButton (p : Player) (b : Button) : Button :=
  if isMuted p then
    mkButton "ðŸ”‡ Unmute" (class_add "muted" (classList b)) "Unmute audio"
  else
    mkButton "ðŸ”Š Mute" (class_remove "muted" (classList b)) "Mute audio".

(** The [detail] of a ['volumechange'] event. *)
Record VolumeChange := mkVolumeChange {
  detail_volume : JS.number;
  detail_isMuted : bool
}.

(** The click listener of [#mute-btn]; the third component is the event
    it dispatches. *)
Definition mute_click (w : World) (b : Button)
  : World * Button * VolumeChange :=
  let w' := toggleMute w in
  (w', updateMuteButton (self w') b,
   mkVolumeChange (volume (self w')) (isMuted (self w'))).

(** ** The click on a song button ([scripts/main.js]) *)

(** [player.play(Number(event.target.dataset.index))] *)
Definition song_click (r : SongRow) (w : World) : World :=
  play (data_index r) false w.

(** ** Notions for the controls *)

(** The [data-index] values of the rows whose button has the class
    [active], and of the rows with [aria-selected = true]. *)
Definition highlighted (rows : list SongRow) : list Z :=
  map data_index (filter is_active rows).

Definition selected (rows : list SongRow) : list Z :=
  map data_index (filter aria_selected rows).

(** There is a row with [data-index = i]. *)
Definition has_row (i : Z) (rows : list SongRow) : bool :=
  existsb (fun r => data_index r =? i) rows.

(** The keys [handleSongButtonKeydown] moves the focus on. *)
Definition navigation_keys : list string :=
  ["ArrowDown"; "ArrowUp"; "Home"; "End"].

(** What the listeners of [initSongHighlighting] have made of the page
    once they have seen the events [events]. *)
Definition replay (events : list DomEvent) (ui : list SongRow * option Status)
  : list SongRow * option Status :=
  fold_left (fun u e => on_dom_event e u) events ui.

(** The payload of a ['songchange'] names an index of [songList] and the
    song there. *)
Definition good_event (songList : list Song) (e : DomEvent) : Prop :=
  match e with
  | SongChange index song =>
      0 <= index /\ nth_error songList (Z.to_nat index) = Some song
  | PlaybackStopped => True
  end.

Definition good_promise (songList : list Song) (p : Promise) : Prop :=
  match p_then p with
  | PlayStarted index song =>
      0 <= index /\ nth_error songList (Z.to_nat index) = Some song
  | Resumed => True
  end.

(** What the page shows after the last of [events]. *)
Fixpoint last_shown (events : list DomEvent) (shown : list Z) : list Z :=
  match events with
  | [] => shown
  | SongChange index _ :: rest => last_shown rest [index]
  | PlaybackStopped :: rest => last_shown rest []
  end.

(** The song list is [songList], and every pending start promise and every
    dispatched ['songchange'] names an index of it and the song there. *)
Definition announced (songList : list Song) (w : World) : Prop :=
  songs (self w) = songList /\
  Forall (good_promise songList) (promises w) /\
  Forall (good_event songList) (dispatched w).


(** * Properties *)

(** ** The transition made by [play] *)

Lemma lookup_valid (l : list Song) (i : Z) :
  0 <= i < Z.of_nat (List.length l) ->
  exists song, nth_error l (Z.to_nat i) = Some song.
Proof.
  intros Hi.
  destruct (nth_error l (Z.to_nat i)) as [song|] eqn:E.
  - now exists song.
  - apply nth_error_None in E. lia.
Qed.

Lemma valid_test (index : Z) (w : World) :
  valid_index index w ->
  (index <? 0) || (index >=? songs_length w) = false.
Proof.
  unfold valid_index. intros H.
  rewrite Z.geb_leb. apply orb_false_iff.
  split; [apply Z.ltb_ge | apply Z.leb_gt]; lia.
Qed.

Lemma invalid_test (index : Z) (w : World) :
  index < 0 \/ index >= songs_length w ->
  (index <? 0) || (index >=? songs_length w) = true.
Proof.
  intros [H | H]; apply orb_true_iff.
  - left. now apply Z.ltb_lt.
  - right. rewrite Z.geb_leb. apply Z.leb_le. lia.
Qed.

(** A call of [play] with an index of the list, in full. *)
Lemma play_valid (index : Z) (fromSequence : bool) (w : World) :
  valid_index index w ->
  exists song,
    nth_error (songs (self w)) (Z.to_nat index) = Some song /\
    play index fromSequence w =
    mkWorld
      (mkPlayer (songs (self w)) (Some (started w song)) (Some index)
         (match audio (self w) with
          | Some _ => false
          | None => isPlaying (self w)
          end)
         (isMuted (self w)) (volume (self w))
         (if fromSequence then isSequence (self w) else true))
      (S (nextAudio w))
      (match audio (self w) with
       | Some a => detached w ++ [released a]
       | None => detached w
       end)
      (promises w ++ [mkPromise (nextAudio w) (PlayStarted index song)])
      (timers w) (clock w) (dispatched w) (console w) (errorMsg w).
Proof.
  intros Hv.
  destruct (lookup_valid (songs (self w)) index Hv) as [song Hs].
  exists song. split; [exact Hs|].
  unfold play. rewrite (valid_test _ _ Hv).
  destruct w as [[sl au ci pl mu vo sq] na de pr ti cl di co em].
  simpl in Hs.
  destruct au as [a|], fromSequence, sq; simpl; rewrite Hs; reflexivity.
Qed.

Lemma play_invalid (index : Z) (fromSequence : bool) (w : World) :
  index < 0 \/ index >= songs_length w ->
  play index fromSequence w = log (ErrInvalidIndex index) w.
Proof.
  intros H. unfold play. now rewrite (invalid_test _ _ H).
Qed.

(** ** Manual selection and the sequence flag *)

(** C1 (as the code behaves).  The claim is that a manual [play(k)] in
    sequence mode leaves [isSequence] false.  The code does the opposite:
    for every state with [isSequence] true and every index [k], in range
    or not, [isSequence] is true after [play(k, false)]. *)
Theorem manual_play_leaves_sequence_on (w : World) (k : Z) :
  isSequence (self w) = true ->
  isSequence (self (play k false w)) = true.
Proof.
  intros Hseq.
  destruct (Z_lt_dec k 0) as [Hneg | Hpos].
  - rewrite play_invalid by (left; exact Hneg). exact Hseq.
  - destruct (Z_ge_dec k (songs_length w)) as [Hbig | Hsmall].
    + rewrite play_invalid by (right; exact Hbig). exact Hseq.
    + assert (Hv : valid_index k w) by (unfold valid_index; lia).
      destruct (play_valid k false w Hv) as [song [_ ->]]. reflexivity.
Qed.

Lemma manual_play_leaves_sequence_on_witness :
  isSequence (self (playAll page)) = true /\
  isSequence (self (play 1 false (playAll page))) = true.
Proof.
  split.
  - reflexivity.
  - apply (manual_play_leaves_sequence_on (playAll page) 1). reflexivity.
Defined.

(** ** Indices outside the list *)

(** C6.  [play] with an index below [0] or not below the number of songs
    changes no field of the player, creates and releases no audio element,
    leaves no promise and no timer, dispatches nothing and leaves the
    error text alone: all it does is write one line to the console. *)
Theorem play_out_of_range_only_logs
        (index : Z) (fromSequence : bool) (w : World) :
  index < 0 \/ index >= songs_length w ->
  self (play index fromSequence w) = self w /\
  nextAudio (play index fromSequence w) = nextAudio w /\
  detached (play index fromSequence w) = detached w /\
  promises (play index fromSequence w) = promises w /\
  timers (play index fromSequence w) = timers w /\
  clock (play index fromSequence w) = clock w /\
  dispatched (play index fromSequence w) = dispatched w /\
  errorMsg (play index fromSequence w) = errorMsg w /\
  console (play index fromSequence w) =
    (console w ++ [ErrInvalidIndex index])%list.
Proof.
  intros H. rewrite (play_invalid _ _ _ H). unfold log. simpl.
  repeat split.
Qed.

Lemma play_out_of_range_only_logs_witness :
  (999 < 0 \/ 999 >= songs_length page) /\
  self (play 999 false page) = self page /\
  console (play 999 false page) = [ErrInvalidIndex 999].
Proof.
  assert (H : 999 < 0 \/ 999 >= songs_length page)
    by (right; unfold songs_length; simpl; lia).
  split; [exact H|].
  destruct (play_out_of_range_only_logs 999 false page H)
    as (Hs & _ & _ & _ & _ & _ & _ & _ & Hc).
  split; [exact Hs | exact Hc].
Defined.

(** ** Mute *)

(** C8.  Neither [mute] nor [unmute] touches the stored volume, so the
    volume after [mute(); unmute()] is the one before; [unmute] writes the
    stored volume to the audio element when there is one, and [mute]
    writes zero. *)
Theorem mute_unmute_keeps_volume (w : World) :
  volume (self (mute w)) = volume (self w) /\
  volume (self (unmute w)) = volume (self w) /\
  volume (self (unmute (mute w))) = volume (self w) /\
  audio (self (mute w)) =
    option_map (Audio.set_volume JS.zero) (audio (self w)) /\
  audio (self (unmute w)) =
    option_map (Audio.set_volume (volume (self w))) (audio (self w)) /\
  audio (self (unmute (mute w))) =
    option_map (Audio.set_volume (volume (self w))) (audio (self w)).
Proof.
  destruct w as [[sl au ci pl mu vo sq] na de pr ti cl di co em].
  destruct au as [a|]; repeat split.
Qed.

(** C9.  [toggleMute] negates [isMuted]; it is [mute] on an unmuted
    player and [unmute] on a muted one; two calls in a row give back the
    [isMuted] flag and the stored volume. *)
Theorem toggleMute_flips (w : World) :
  isMuted (self (toggleMute w)) = negb (isMuted (self w)) /\
  toggleMute w = (if isMuted (self w) then unmute w else mute w) /\
  isMuted (self (toggleMute (toggleMute w))) = isMuted (self w) /\
  volume (self (toggleMute (toggleMute w))) = volume (self w).
Proof.
  destruct w as [[sl au ci pl mu vo sq] na de pr ti cl di co em].
  destruct au as [a|], mu; repeat split.
Qed.

(** ** Pause and resume *)

(** C10.  [pause] and [resume] change at most [isPlaying] and the
    [paused] status of the element: the index, the volume, the two flags
    [isMuted] and [isSequence], the song list and the identity of the
    element stay, nothing is created or released, and without an element
    both calls do nothing at all.  The same holds when the promise left by
    [resume] settles, either way. *)
Theorem pause_resume_frame (w : World) :
  same_but_playing w (pause w) /\
  same_but_playing w (resume w) /\
  (forall ok, same_but_playing w (settled Resumed ok w)) /\
  (audio (self w) = None -> pause w = w /\ resume w = w).
Proof.
  destruct w as [[sl au ci pl mu vo sq] na de pr ti cl di co em].
  unfold same_but_playing, pause, resume.
  destruct au as [a|], pl; simpl; repeat split;
    try (intros; discriminate); destruct ok; reflexivity.
Qed.

Lemma pause_resume_frame_witness :
  pause page = page /\ resume page = page.
Proof.
  apply (pause_resume_frame page). reflexivity.
Defined.

(** ** Volume *)

(** Comparison of doubles. *)
Lemma SFcompare_antisym (x y : spec_float) :
  SFcompare y x = option_map CompOpp (SFcompare x y).
Proof.
  destruct x as [[|]|[|]| |[|] m e], y as [[|]|[|]| |[|] m' e'];
    try reflexivity; simpl;
    rewrite (Z.compare_antisym e' e);
    destruct (e' ?= e); simpl; try reflexivity;
    fold (Pos.compare m m'); fold (Pos.compare m' m);
    rewrite (Pos.compare_antisym m' m);
    destruct (Pos.compare m' m); reflexivity.
Qed.

Lemma SFcompare_refl (x : spec_float) :
  JS.is_nan x = false -> SFcompare x x = Some Eq.
Proof.
  destruct x as [[|]|[|]| |[|] m e]; simpl; try reflexivity; try discriminate;
    intros _; rewrite Z.compare_refl, Pos.compare_cont_refl; reflexivity.
Qed.

Lemma SFltb_leb (x y : spec_float) : SFltb x y = true -> SFleb x y = true.
Proof.
  unfold SFltb, SFleb. destruct (SFcompare x y) as [[| |]|]; congruence.
Qed.

Lemma SFltb_asym (x y : spec_float) : SFltb x y = true -> SFltb y x = false.
Proof.
  unfold SFltb. rewrite (SFcompare_antisym x y).
  destruct (SFcompare x y) as [[| |]|]; simpl; congruence.
Qed.

Lemma clamp_cases (v : JS.number) :
  clamp v =
  if JS.is_nan v then JS.NaN
  else if SFltb v JS.one
       then (if SFltb JS.zero v then v else JS.zero)
       else JS.one.
Proof.
  unfold clamp, JS.Math_max, JS.Math_min.
  destruct v as [[|]|[|]| |[|] m e]; try reflexivity.
  set (v := S754_finite false m e).
  change (JS.min_from JS.infinity [JS.one; v])
    with (if SFltb v JS.one then v else JS.one).
  destruct (SFltb v JS.one); reflexivity.
Qed.

Lemma clamp_in_unit_interval (v : JS.number) :
  JS.is_nan v = false -> in_unit_interval (clamp v) = true.
Proof.
  intros Hv. rewrite clamp_cases, Hv.
  destruct (SFltb v JS.one) eqn:H1; [|reflexivity].
  destruct (SFltb JS.zero v) eqn:H0; [|reflexivity].
  unfold in_unit_interval. now rewrite (SFltb_leb _ _ H0), (SFltb_leb _ _ H1).
Qed.

Lemma clamp_below (v : JS.number) :
  SFltb v JS.zero = true -> clamp v = JS.zero.
Proof.
  intros H. rewrite clamp_cases.
  destruct v as [[|]|[|]| |[|] m e]; try discriminate H; reflexivity.
Qed.

Lemma clamp_above (v : JS.number) :
  SFltb JS.one v = true -> clamp v = JS.one.
Proof.
  intros H. rewrite clamp_cases, (SFltb_asym _ _ H).
  destruct v; try discriminate H; reflexivity.
Qed.

Lemma clamp_inside (v : JS.number) :
  in_unit_interval v = true -> SFeqb (clamp v) v = true.
Proof.
  unfold in_unit_interval. intros H. apply andb_true_iff in H as [H0 H1].
  assert (Hn : JS.is_nan v = false)
    by (destruct v; try reflexivity; discriminate H0).
  rewrite clamp_cases, Hn.
  destruct (SFltb v JS.one) eqn:L1.
  - destruct (SFltb JS.zero v) eqn:L0.
    + unfold SFeqb. now rewrite SFcompare_refl.
    + unfold SFeqb, SFltb, SFleb in *.
      destruct (SFcompare JS.zero v) as [[| |]|]; congruence.
  - unfold SFeqb, SFltb, SFleb in *. rewrite (SFcompare_antisym v JS.one).
    destruct (SFcompare v JS.one) as [[| |]|]; simpl; congruence.
Qed.

Lemma setVolume_volume (v : JS.number) (w : World) :
  volume (self (setVolume v w)) = clamp v.
Proof.
  destruct w as [[sl au ci pl mu vo sq] na de pr ti cl di co em].
  unfold setVolume. simpl. destruct mu, au as [a|]; reflexivity.
Qed.

(** C7 (as stated, refuted).  [setVolume(NaN)] stores [NaN], which is not
    in the interval: [Math.min] and [Math.max] hand a [NaN] argument
    through. *)
Lemma setVolume_nan_not_clamped :
  volume (self (setVolume JS.NaN page)) = JS.NaN /\
  in_unit_interval (volume (self (setVolume JS.NaN page))) = false.
Proof.
  split; reflexivity.
Qed.

(** C7 (amended).  For every number [v] other than [NaN], the volume
    stored by [setVolume(v)] lies in [[0,1]]: it is [0] for [v] below [0],
    [1] for [v] above [1] and equal to [v] otherwise.  [isMuted] stays as it
    was; an existing audio element gets the new volume at once when the
    player is not muted, and is left alone when it is. *)
Theorem setVolume_clamps (v : JS.number) (w : World) :
  JS.is_nan v = false ->
  in_unit_interval (volume (self (setVolume v w))) = true /\
  (SFltb v JS.zero = true -> volume (self (setVolume v w)) = JS.zero) /\
  (SFltb JS.one v = true -> volume (self (setVolume v w)) = JS.one) /\
  (in_unit_interval v = true ->
   SFeqb (volume (self (setVolume v w))) v = true) /\
  isMuted (self (setVolume v w)) = isMuted (self w) /\
  audio (self (setVolume v w)) =
    (if isMuted (self w) then audio (self w)
     else option_map (Audio.set_volume (volume (self (setVolume v w))))
                     (audio (self w))).
Proof.
  intros Hv. rewrite setVolume_volume.
  split; [now apply clamp_in_unit_interval|].
  split; [apply clamp_below|].
  split; [apply clamp_above|].
  split; [apply clamp_inside|].
  destruct w as [[sl au ci pl mu vo sq] na de pr ti cl di co em].
  unfold setVolume. simpl. destruct mu, au as [a|]; split; reflexivity.
Qed.

Lemma setVolume_clamps_witness :
  JS.is_nan three_halves = false /\
  SFltb JS.one three_halves = true /\
  volume (self (setVolume three_halves (play 0 false page))) = JS.one /\
  isMuted (self (setVolume three_halves (play 0 false page))) = false.
Proof.
  assert (Hn : JS.is_nan three_halves = false) by reflexivity.
  assert (Hl : SFltb JS.one three_halves = true) by reflexivity.
  destruct (setVolume_clamps three_halves (play 0 false page) Hn)
    as (_ & _ & Habove & _ & Hm & _).
  split; [exact Hn|]. split; [exact Hl|].
  split; [exact (Habove Hl) | exact Hm].
Defined.

(** ** What every operation preserves *)

Ltac open_world w :=
  destruct w as [[sl au ci pl mu vo sq] na de pr ti cl di co em].

Ltac break_consistent H :=
  destruct H as [Hiff Hseq Hrange]; unfold valid_index, songs_length in *;
  simpl in *.

Lemma consistent_init (songList : list Song) (msg : option string) :
  consistent (init songList msg).
Proof.
  constructor; simpl; try tauto; discriminate.
Qed.

Lemma consistent_same_player (w w' : World) :
  self w' = self w -> consistent w -> consistent w'.
Proof.
  intros E [Hiff Hseq Hrange].
  constructor; unfold valid_index, songs_length in *; rewrite E; assumption.
Qed.

(** [consistent] looks only at the song list, the index, the sequence flag
    and at whether there is an audio element. *)
Lemma consistent_same_shape (w w' : World) :
  songs (self w') = songs (self w) ->
  currentIndex (self w') = currentIndex (self w) ->
  isSequence (self w') = isSequence (self w) ->
  (audio (self w') = None <-> audio (self w) = None) ->
  consistent w -> consistent w'.
Proof.
  intros Es Ei Eq Ea [Hiff Hseq Hrange].
  constructor; unfold valid_index, songs_length in *;
    rewrite ?Es, ?Ei, ?Eq; try tauto; assumption.
Qed.

Ltac same_shape w :=
  apply (consistent_same_shape w); try assumption;
  destruct w as [[sl [a|] ci [|] [|] vo sq] na de pr ti cl di co em]; simpl;
  try reflexivity; try tauto; try (split; discriminate).

Lemma consistent_set_isPlaying (b : bool) (w : World) :
  consistent w -> consistent (update (set_isPlaying b) w).
Proof. intros H. same_shape w. Qed.

Lemma consistent_play (index : Z) (fromSequence : bool) (w : World) :
  consistent w -> consistent (play index fromSequence w).
Proof.
  intros H.
  destruct (Z_lt_dec index 0) as [Hneg | Hpos].
  { rewrite play_invalid by (left; exact Hneg).
    now apply (consistent_same_player w). }
  destruct (Z_ge_dec index (songs_length w)) as [Hbig | Hsmall].
  { rewrite play_invalid by (right; exact Hbig).
    now apply (consistent_same_player w). }
  assert (Hv : valid_index index w) by (unfold valid_index; lia).
  destruct (play_valid index fromSequence w Hv) as [song [_ ->]].
  constructor; unfold valid_index, songs_length in *; simpl.
  - split; discriminate.
  - discriminate.
  - intros i Hi. injection Hi as <-. exact Hv.
Qed.

Lemma consistent_stop (w : World) : consistent w -> consistent (stop w).
Proof.
  intros H. unfold stop. destruct (audio (self w)) as [a|] eqn:E; [|exact H].
  constructor; simpl; try tauto; discriminate.
Qed.

Lemma consistent_pause (w : World) : consistent w -> consistent (pause w).
Proof. intros H. unfold pause. same_shape w. Qed.

Lemma consistent_resume (w : World) : consistent w -> consistent (resume w).
Proof. intros H. unfold resume. same_shape w. Qed.

Lemma consistent_setVolume (v : JS.number) (w : World) :
  consistent w -> consistent (setVolume v w).
Proof. intros H. unfold setVolume. same_shape w. Qed.

Lemma consistent_mute (w : World) : consistent w -> consistent (mute w).
Proof. intros H. unfold mute. same_shape w. Qed.

Lemma consistent_unmute (w : World) : consistent w -> consistent (unmute w).
Proof. intros H. unfold unmute. same_shape w. Qed.

Lemma consistent_playAll (w : World) : consistent w -> consistent (playAll w).
Proof.
  intros H. unfold playAll.
  destruct (songs_length w =? 0) eqn:E.
  - now apply (consistent_same_player w).
  - assert (Hv : valid_index 0 (update (set_isSequence true) w)).
    { apply Z.eqb_neq in E. open_world w.
      unfold valid_index, songs_length in *. simpl in *. lia. }
    destruct (play_valid 0 true _ Hv) as [song [_ ->]].
    constructor; unfold valid_index, songs_length in *; simpl.
    + split; discriminate.
    + discriminate.
    + intros i Hi. injection Hi as <-. exact Hv.
Qed.

Lemma consistent_on_ended (w : World) :
  consistent w -> consistent (on_ended w).
Proof.
  intros H. unfold on_ended.
  match goal with |- consistent (if ?c then _ else _) => destruct c end.
  - now apply consistent_play, consistent_set_isPlaying.
  - open_world w. break_consistent H. constructor; simpl; try assumption.
    discriminate.
Qed.

Lemma consistent_handlePlaybackError (song : Song) (w : World) :
  consistent w -> consistent (handlePlaybackError song w).
Proof.
  intros H. unfold handlePlaybackError.
  set (w1 := match errorMsg w with Some _ => _ | None => w end).
  assert (H1 : consistent w1).
  { subst w1. destruct (errorMsg w); [|exact H].
    now apply (consistent_same_player w). }
  clearbody w1.
  match goal with |- consistent (if ?c then _ else _) => destruct c end.
  - now apply (consistent_same_player w1).
  - destruct (isSequence (self w1)); [|exact H1].
    apply consistent_stop.
    open_world w1. break_consistent H1. constructor; simpl; try assumption.
    discriminate.
Qed.

Lemma consistent_fire (act : TimerAction) (w : World) :
  consistent w -> consistent (fire act w).
Proof.
  intros H. destruct act as [song|]; simpl.
  - destruct (errorMsg w) as [text|]; [|exact H].
    destruct (JS.includes (title song) text); [|exact H].
    now apply (consistent_same_player w).
  - now apply consistent_play.
Qed.

Lemma consistent_settle (n : nat) (ok : bool) (w : World) :
  consistent w -> consistent (settle n ok w).
Proof.
  intros H. unfold settle.
  destruct (nth_error (promises w) n) as [[a k]|]; [|exact H].
  open_world w. break_consistent H.
  destruct k, ok; constructor; simpl; assumption.
Qed.

(** A property kept by every callback is kept by a round of timers. *)
Lemma fold_fire_keeps (P : World -> Prop) :
  (forall act w, P w -> P (fire act w)) ->
  forall l w, P w -> P (fold_left (fun w' x => fire (action x) w') l w).
Proof.
  intros Hfire l. induction l as [|x l IH]; intros w Hw; simpl.
  - exact Hw.
  - apply IH, Hfire, Hw.
Qed.

Lemma consistent_advance (ms : Z) (w : World) :
  consistent w -> consistent (advance ms w).
Proof.
  intros H. unfold advance, fire_all.
  apply (fold_fire_keeps consistent consistent_fire).
  now apply (consistent_same_player w).
Qed.

Lemma consistent_step (o : Op) (w : World) :
  consistent w -> consistent (step o w).
Proof.
  intros H. destruct o; simpl.
  - now apply consistent_play.
  - now apply consistent_pause.
  - now apply consistent_resume.
  - now apply consistent_stop.
  - now apply consistent_setVolume.
  - now apply consistent_mute.
  - now apply consistent_unmute.
  - unfold toggleMute. destruct (isMuted (self w));
      [now apply consistent_unmute | now apply consistent_mute].
  - now apply consistent_playAll.
  - now apply consistent_on_ended.
  - unfold on_error. apply consistent_handlePlaybackError.
    now apply (consistent_same_player w).
  - now apply consistent_settle.
  - now apply consistent_advance.
Qed.

Lemma consistent_run (ops : list Op) (w : World) :
  consistent w -> consistent (run ops w).
Proof.
  revert w. induction ops as [|o ops IH]; intros w H; simpl.
  - exact H.
  - apply IH, consistent_step, H.
Qed.

(** *** [isPlaying] and promises that settle late *)














(** ** Sequential playback *)

Lemma songs_length_update (f : Player -> Player) (w : World) :
  songs (f (self w)) = songs (self w) ->
  songs_length (update f w) = songs_length w.
Proof.
  unfold songs_length. simpl. now intros ->.
Qed.

Lemma playAll_starts (w : World) :
  songs (self w) <> [] ->
  currentIndex (self (playAll w)) = Some 0 /\
  isSequence (self (playAll w)) = true /\
  songs (self (playAll w)) = songs (self w).
Proof.
  intros Hne. unfold playAll.
  assert (Hlen : 0 < songs_length w).
  { unfold songs_length. destruct (songs (self w)); [congruence|].
    simpl. lia. }
  destruct (songs_length w =? 0) eqn:E; [apply Z.eqb_eq in E; lia|].
  assert (Hv : valid_index 0 (update (set_isSequence true) w)).
  { unfold valid_index. rewrite songs_length_update by reflexivity. lia. }
  destruct (play_valid 0 true _ Hv) as [song [_ ->]].
  repeat split.
Qed.

(** ['ended'] on a song that is not the last one of a running sequence. *)
Lemma on_ended_next (w : World) (i : Z) :
  isSequence (self w) = true ->
  currentIndex (self w) = Some i ->
  0 <= i < songs_length w - 1 ->
  currentIndex (self (on_ended w)) = Some (i + 1) /\
  isSequence (self (on_ended w)) = true /\
  songs (self (on_ended w)) = songs (self w).
Proof.
  intros Hseq Hi Hr. unfold on_ended.
  rewrite songs_length_update by reflexivity.
  replace (isSequence (self (update (set_isPlaying false) w)))
    with true by (simpl; now rewrite Hseq).
  replace (currentIndex (self (update (set_isPlaying false) w)))
    with (Some i) by (simpl; now rewrite Hi).
  simpl JS.to_number.
  replace (i <? songs_length w - 1) with true
    by (symmetry; apply Z.ltb_lt; lia).
  simpl andb. cbv iota.
  assert (Hv : valid_index (i + 1) (update (set_isPlaying false) w)).
  { unfold valid_index. rewrite songs_length_update by reflexivity. lia. }
  destruct (play_valid (i + 1) true _ Hv) as [song [_ ->]]. simpl.
  repeat split. exact Hseq.
Qed.

(** ['ended'] on the last song. *)
Lemma on_ended_last (w : World) (i : Z) :
  currentIndex (self w) = Some i ->
  songs_length w - 1 <= i ->
  currentIndex (self (on_ended w)) = Some i /\
  isSequence (self (on_ended w)) = false /\
  songs (self (on_ended w)) = songs (self w).
Proof.
  intros Hi Hr. unfold on_ended.
  rewrite songs_length_update by reflexivity.
  replace (currentIndex (self (update (set_isPlaying false) w)))
    with (Some i) by (simpl; now rewrite Hi).
  simpl JS.to_number.
  replace (i <? songs_length w - 1) with false
    by (symmetry; apply Z.ltb_ge; lia).
  rewrite andb_false_r. simpl. repeat split. exact Hi.
Qed.

Lemma on_ended_not_playing (w : World) :
  isPlaying (self (on_ended w)) = false.
Proof.
  unfold on_ended.
  match goal with
  | |- isPlaying (self (if ?c then _ else _)) = false => destruct c
  end; [|reflexivity].
  set (w1 := update (set_isPlaying false) w).
  set (k := JS.to_number (currentIndex (self w1)) + 1).
  destruct (Z_lt_dec k 0) as [Hneg | Hpos].
  { now rewrite play_invalid by (left; exact Hneg). }
  destruct (Z_ge_dec k (songs_length w1)) as [Hbig | Hsmall].
  { now rewrite play_invalid by (right; exact Hbig). }
  assert (Hv : valid_index k w1) by (unfold valid_index; lia).
  destruct (play_valid k true w1 Hv) as [song [_ ->]]. simpl.
  now destruct (audio (self w)).
Qed.

Lemma sequence_progress (w : World) (k : nat) :
  songs (self w) <> [] ->
  (k < List.length (songs (self w)))%nat ->
  currentIndex (self (ended_times k (playAll w))) = Some (Z.of_nat k) /\
  isSequence (self (ended_times k (playAll w))) = true /\
  songs (self (ended_times k (playAll w))) = songs (self w).
Proof.
  intros Hne. induction k as [|k IH]; intros Hk.
  - simpl. now apply playAll_starts.
  - destruct IH as (Hi & Hs & Hl); [lia|].
    unfold ended_times in *. simpl Nat.iter.
    set (wk := Nat.iter k on_ended (playAll w)) in *.
    assert (Hr : 0 <= Z.of_nat k < songs_length wk - 1).
    { unfold songs_length. rewrite Hl. lia. }
    destruct (on_ended_next wk (Z.of_nat k) Hs Hi Hr) as (Hi' & Hs' & Hl').
    rewrite Hi', Hs', Hl', Hl. repeat split. f_equal. lia.
Qed.

(** C3.  On a player with [N > 0] songs, in any state, [playAll()]
    followed by ['ended'] events takes [currentIndex] through
    [0, 1, ..., N-1]: after [k < N] events the index is [k] and the
    sequence is on.  The [N]-th event switches the sequence off and leaves
    the index at [N-1].  After any ['ended'] event [isPlaying] is false. *)
Theorem playAll_runs_through_the_list (w : World) :
  songs (self w) <> [] ->
  (forall k : nat,
      (k < List.length (songs (self w)))%nat ->
      currentIndex (self (ended_times k (playAll w))) = Some (Z.of_nat k) /\
      isSequence (self (ended_times k (playAll w))) = true) /\
  currentIndex
    (self (ended_times (List.length (songs (self w))) (playAll w)))
    = Some (songs_length w - 1) /\
  isSequence
    (self (ended_times (List.length (songs (self w))) (playAll w)))
    = false /\
  (forall (k : nat) (w' : World),
      isPlaying (self (ended_times (S k) w')) = false).
Proof.
  intros Hne.
  split; [intros k Hk; destruct (sequence_progress w k Hne Hk); tauto|].
  assert (Hlen : List.length (songs (self w)) <> O)
    by (destruct (songs (self w)); [congruence | discriminate]).
  destruct (List.length (songs (self w))) as [|n] eqn:En; [congruence|].
  destruct (sequence_progress w n Hne) as (Hi & Hs & Hl); [lia|].
  unfold ended_times in *. simpl Nat.iter.
  set (wn := Nat.iter n on_ended (playAll w)) in *.
  assert (Hr : songs_length wn - 1 <= Z.of_nat n).
  { unfold songs_length. rewrite Hl, En. lia. }
  destruct (on_ended_last wn (Z.of_nat n) Hi Hr) as (Hi' & Hs' & _).
  rewrite Hi', Hs'. unfold songs_length. rewrite En.
  split; [f_equal; lia|]. split; [reflexivity|].
  intros k w'. apply on_ended_not_playing.
Qed.

Lemma playAll_runs_through_the_list_witness :
  songs (self page) <> [] /\
  currentIndex (self (ended_times 1 (playAll page))) = Some 1 /\
  isSequence (self (ended_times 1 (playAll page))) = true /\
  currentIndex (self (ended_times 3 (playAll page))) = Some 2 /\
  isSequence (self (ended_times 3 (playAll page))) = false.
Proof.
  assert (Hne : songs (self page) <> []) by discriminate.
  destruct (playAll_runs_through_the_list page Hne) as (Hk & Hi & Hs & _).
  destruct (Hk 1%nat) as [H1 H1']; [simpl; lia|].
  exact (conj Hne (conj H1 (conj H1' (conj Hi Hs)))).
Defined.

(** ** Timers *)

Lemma same_core_refl (w : World) : same_core w w.
Proof. split; reflexivity. Qed.

Lemma same_core_trans (w1 w2 w3 : World) :
  same_core w1 w2 -> same_core w2 w3 -> same_core w1 w3.
Proof. intros [A B] [C D]. split; congruence. Qed.

Lemma play_same_core (index : Z) (fromSequence : bool) (w w' : World) :
  same_core w w' ->
  same_core (play index fromSequence w) (play index fromSequence w').
Proof.
  intros [Hs Hn].
  assert (Hl : songs_length w = songs_length w')
    by (unfold songs_length; now rewrite Hs).
  destruct (Z_lt_dec index 0) as [Hneg | Hpos].
  { rewrite !play_invalid by (left; exact Hneg). now split. }
  destruct (Z_ge_dec index (songs_length w)) as [Hbig | Hsmall].
  { rewrite (play_invalid _ _ w) by (right; exact Hbig).
    rewrite (play_invalid _ _ w') by (right; rewrite <- Hl; exact Hbig).
    now split. }
  assert (Hv : valid_index index w) by (unfold valid_index; lia).
  assert (Hv' : valid_index index w') by (unfold valid_index; lia).
  destruct (play_valid index fromSequence w Hv) as [song [Hsong ->]].
  destruct (play_valid index fromSequence w' Hv') as [song' [Hsong' ->]].
  rewrite Hs in Hsong. rewrite Hsong' in Hsong. injection Hsong as ->.
  unfold same_core, started. simpl. rewrite Hs, Hn. split; reflexivity.
Qed.

Lemma fire_same_core (act : TimerAction) (w w' : World) :
  same_core w w' -> same_core (fire act w) (fire act w').
Proof.
  intros H. destruct act as [song|]; simpl.
  - destruct H as [Hs Hn].
    destruct (errorMsg w) as [t|], (errorMsg w') as [t'|];
      repeat match goal with
             | |- context [if ?c then _ else _] => destruct c
             end; split; assumption.
  - destruct H as [Hs Hn]. rewrite Hs.
    apply play_same_core. now split.
Qed.

Lemma fire_clear_same_core (song : Song) (w : World) :
  same_core (fire (ClearErrorMsg song) w) w.
Proof.
  simpl. destruct (errorMsg w) as [t|]; [|apply same_core_refl].
  destruct (JS.includes (title song) t); split; reflexivity.
Qed.

Lemma fire_all_same_core (l : list Timer) (w w' : World) :
  same_core w w' -> same_core (fire_all l w) (fire_all l w').
Proof.
  revert w w'. induction l as [|x l IH]; intros w w' H; simpl.
  - exact H.
  - apply IH, fire_same_core, H.
Qed.

(** Timers that only clear the error text leave the player alone. *)
Lemma fire_all_no_skip (l : list Timer) (w : World) :
  skips l = 0%nat -> same_core (fire_all l w) w.
Proof.
  revert w. unfold skips.
  induction l as [|[d [song|]] l IH]; intros w H; simpl in *.
  - apply same_core_refl.
  - apply (same_core_trans _ (fire_all l w)).
    + apply fire_all_same_core, fire_clear_same_core.
    + apply IH, H.
  - discriminate H.
Qed.

(** With one error skip among them, they act on the player as that skip
    alone. *)
Lemma fire_all_one_skip (l : list Timer) (w : World) :
  skips l = 1%nat -> same_core (fire_all l w) (fire ErrorSkip w).
Proof.
  revert w. unfold skips.
  induction l as [|[d [song|]] l IH]; intros w H; simpl in *.
  - discriminate H.
  - apply (same_core_trans _ (fire ErrorSkip (fire (ClearErrorMsg song) w))).
    + apply IH, H.
    + apply (fire_same_core ErrorSkip), fire_clear_same_core.
  - apply (fire_all_no_skip l (fire ErrorSkip w)).
    unfold skips. now injection H.
Qed.

Lemma skips_app (l1 l2 : list Timer) :
  skips (l1 ++ l2) = (skips l1 + skips l2)%nat.
Proof.
  unfold skips. now rewrite filter_app, length_app.
Qed.

Lemma skips_insert_timer (t : Timer) (l : list Timer) :
  skips (insert_timer t l) = (skips [t] + skips l)%nat.
Proof.
  unfold skips. induction l as [|u l IH]; simpl.
  - lia.
  - destruct (due t <? due u); simpl in *;
      destruct (is_skip u), (is_skip t); simpl in *; lia.
Qed.

Lemma skips_by_due (l : list Timer) : skips (by_due l) = skips l.
Proof.
  unfold by_due.
  assert (H : forall acc,
             skips (fold_left (fun acc t => insert_timer t acc) l acc)
             = (skips l + skips acc)%nat).
  { induction l as [|t l IH]; intros acc; simpl.
    - reflexivity.
    - rewrite IH, skips_insert_timer.
      change (t :: l) with (([t] ++ l)%list). rewrite skips_app. lia. }
  rewrite H. unfold skips. simpl. lia.
Qed.

Lemma skips_filter_le (f : Timer -> bool) (l : list Timer) :
  (skips (filter f l) <= skips l)%nat.
Proof.
  unfold skips. induction l as [|t l IH]; simpl.
  - lia.
  - destruct (f t), (is_skip t) eqn:E; simpl; rewrite ?E; simpl; lia.
Qed.

Lemma advance_no_skip (ms : Z) (w : World) :
  skips (ready ms w) = 0%nat -> same_core (advance ms w) w.
Proof.
  intros H. unfold advance.
  eapply same_core_trans.
  - apply fire_all_no_skip. now rewrite skips_by_due.
  - split; reflexivity.
Qed.

Lemma advance_one_skip (ms : Z) (w : World) :
  skips (ready ms w) = 1%nat -> same_core (advance ms w) (fire ErrorSkip w).
Proof.
  intros H. unfold advance.
  eapply same_core_trans.
  - apply fire_all_one_skip. now rewrite skips_by_due.
  - apply fire_same_core. split; reflexivity.
Qed.

(** ** Errors during a sequence *)







(** ** The error skip after [stop] or [play] *)

Lemma timers_stop (w : World) : timers (stop w) = timers w.
Proof.
  unfold stop. now destruct (audio (self w)).
Qed.

Lemma timers_play (index : Z) (fromSequence : bool) (w : World) :
  timers (play index fromSequence w) = timers w.
Proof.
  destruct (Z_lt_dec index 0) as [Hneg | Hpos].
  { now rewrite play_invalid by (left; exact Hneg). }
  destruct (Z_ge_dec index (songs_length w)) as [Hbig | Hsmall].
  { now rewrite play_invalid by (right; exact Hbig). }
  assert (Hv : valid_index index w) by (unfold valid_index; lia).
  destruct (play_valid index fromSequence w Hv) as [song [_ ->]].
  reflexivity.
Qed.

(** C2 (as the code behaves).  The claim is that a waiting error skip
    does nothing once [stop()] or a manual [play()] has come in between.
    The code: [playAll()], an ['error'] event on the first of three songs,
    then [stop()]: the player is idle, and when the [500] ms are over the
    waiting skip starts the second song.  The same with a manual [play(0)]
    in place of [stop()]. *)
Lemma pending_skip_acts_after_stop :
  audio (self (run [OpPlayAll; OpError song1; OpStop] page)) = None /\
  currentIndex (self (run [OpPlayAll; OpError song1; OpStop] page)) = None /\
  currentIndex
    (self (run [OpPlayAll; OpError song1; OpStop; OpAdvance 500] page))
  = Some 1 /\
  option_map Audio.src
    (audio (self (run [OpPlayAll; OpError song1; OpStop; OpAdvance 500] page)))
  = Some "song2.mp3" /\
  currentIndex
    (self (run [OpPlayAll; OpError song1; OpPlay 0 false] page)) = Some 0 /\
  currentIndex
    (self (run [OpPlayAll; OpError song1; OpPlay 0 false; OpAdvance 500] page))
  = Some 1.
Proof.
  repeat split.
Qed.

(** The skip callback in general.  Neither [stop()] nor [play()] takes a
    waiting error skip away.  When the skip runs, alone among the timers that are due,
    it is a call [play(currentIndex + 1, true)] on the player as it is
    then, a null [currentIndex] counting as [0].  That call changes
    nothing of the player, creates and releases no element and dispatches
    nothing when the index is outside the list; when the index is in the
    list it makes it the current index on a new audio element. *)
Theorem error_skip_acts_on_current_state (w : World) :
  timers (stop w) = timers w /\
  (forall k fromSequence, timers (play k fromSequence w) = timers w) /\
  (forall ms,
      skips (ready ms w) = 1%nat ->
      self (advance ms w) = self (fire ErrorSkip w)) /\
  fire ErrorSkip w = play (JS.to_number (currentIndex (self w)) + 1) true w /\
  (~ valid_index (JS.to_number (currentIndex (self w)) + 1) w ->
   self (fire ErrorSkip w) = self w /\
   nextAudio (fire ErrorSkip w) = nextAudio w /\
   detached (fire ErrorSkip w) = detached w /\
   promises (fire ErrorSkip w) = promises w /\
   dispatched (fire ErrorSkip w) = dispatched w) /\
  (valid_index (JS.to_number (currentIndex (self w)) + 1) w ->
   currentIndex (self (fire ErrorSkip w))
   = Some (JS.to_number (currentIndex (self w)) + 1) /\
   option_map Audio.id (audio (self (fire ErrorSkip w)))
   = Some (nextAudio w) /\
   currentIndex (self (fire ErrorSkip w)) <> currentIndex (self w)).
Proof.
  split; [apply timers_stop|].
  split; [intros k f; apply timers_play|].
  split; [intros ms H; now destruct (advance_one_skip ms w H)|].
  split; [reflexivity|].
  simpl fire. set (k := JS.to_number (currentIndex (self w)) + 1).
  split.
  - intros Hinv.
    assert (H : k < 0 \/ k >= songs_length w)
      by (unfold valid_index in Hinv; lia).
    rewrite (play_invalid k true w H). repeat split.
  - intros Hv.
    destruct (play_valid k true w Hv) as [song [_ ->]]. simpl.
    repeat split. subst k.
    destruct (currentIndex (self w)) as [i|]; simpl; [|discriminate].
    intros E. injection E. lia.
Qed.

Lemma error_skip_acts_on_current_state_witness :
  (valid_index 1 (run [OpPlayAll; OpError song1; OpStop] page) /\
   currentIndex
     (self (fire ErrorSkip (run [OpPlayAll; OpError song1; OpStop] page)))
   = Some 1) /\
  (~ valid_index 3 (run [OpPlayAll; OpError song1; OpPlay 2 false] page) /\
   self (fire ErrorSkip (run [OpPlayAll; OpError song1; OpPlay 2 false] page))
   = self (run [OpPlayAll; OpError song1; OpPlay 2 false] page)) /\
  self (advance 500 (run [OpPlayAll; OpError song1; OpStop] page))
  = self (fire ErrorSkip (run [OpPlayAll; OpError song1; OpStop] page)).
Proof.
  assert (Hv : valid_index 1 (run [OpPlayAll; OpError song1; OpStop] page))
    by (unfold valid_index, songs_length; simpl; lia).
  assert (Hn : ~ valid_index 3
                 (run [OpPlayAll; OpError song1; OpPlay 2 false] page))
    by (unfold valid_index, songs_length; simpl; lia).
  destruct (error_skip_acts_on_current_state
              (run [OpPlayAll; OpError song1; OpStop] page))
    as (_ & _ & Hadv & _ & _ & Hin).
  destruct (error_skip_acts_on_current_state
              (run [OpPlayAll; OpError song1; OpPlay 2 false] page))
    as (_ & _ & _ & _ & Hout & _).
  split; [exact (conj Hv (proj1 (Hin Hv)))|].
  split; [exact (conj Hn (proj1 (Hout Hn)))|].
  apply (Hadv 500). reflexivity.
Defined.

(** * Further properties of [player.js] *)

(** ** Proving that a property holds in every reachable state *)

(** The two ways [play] can go. *)
Lemma play_cases (Q : World -> Prop) (index : Z) (fromSequence : bool)
      (w : World) :
  (index < 0 \/ index >= songs_length w -> Q (log (ErrInvalidIndex index) w)) ->
  (forall song,
      valid_index index w ->
      nth_error (songs (self w)) (Z.to_nat index) = Some song ->
      Q (mkWorld
           (mkPlayer (songs (self w)) (Some (started w song)) (Some index)
              (match audio (self w) with
               | Some _ => false
               | None => isPlaying (self w)
               end)
              (isMuted (self w)) (volume (self w))
              (if fromSequence then isSequence (self w) else true))
           (S (nextAudio w))
           (match audio (self w) with
            | Some a => detached w ++ [released a]
            | None => detached w
            end)
           (promises w ++ [mkPromise (nextAudio w) (PlayStarted index song)])
           (timers w) (clock w) (dispatched w) (console w) (errorMsg w))) ->
  Q (play index fromSequence w).
Proof.
  intros Hbad Hgood.
  destruct (Z_lt_dec index 0) as [Hneg | Hpos].
  { rewrite play_invalid by (left; exact Hneg). apply Hbad. now left. }
  destruct (Z_ge_dec index (songs_length w)) as [Hbig | Hsmall].
  { rewrite play_invalid by (right; exact Hbig). apply Hbad. now right. }
  assert (Hv : valid_index index w) by (unfold valid_index; lia).
  destruct (play_valid index fromSequence w Hv) as [song [Hs ->]].
  now apply Hgood.
Qed.

Section Invariants.

Variable P : World -> Prop.
Variable allowed : JS.number -> bool.

(** [P] looks at the player, at the allocation counter and at the
    released elements only. *)
Hypothesis P_env : forall w w',
    self w' = self w -> nextAudio w' = nextAudio w ->
    detached w' = detached w -> P w -> P w'.
Hypothesis P_play : forall i f w, P w -> P (play i f w).
Hypothesis P_stop : forall w, P w -> P (stop w).
Hypothesis P_pause : forall w, P w -> P (pause w).
Hypothesis P_resume : forall w, P w -> P (resume w).
Hypothesis P_setVolume : forall v w,
    allowed v = true -> P w -> P (setVolume v w).
Hypothesis P_mute : forall w, P w -> P (mute w).
Hypothesis P_unmute : forall w, P w -> P (unmute w).
Hypothesis P_isPlaying : forall b w, P w -> P (update (set_isPlaying b) w).
Hypothesis P_isSequence : forall b w,
    P w -> P (update (set_isSequence b) w).

Lemma kept_by_handlePlaybackError (song : Song) (w : World) :
  P w -> P (handlePlaybackError song w).
Proof.
  intros H. unfold handlePlaybackError.
  set (w1 := match errorMsg w with Some _ => _ | None => w end).
  assert (H1 : P w1).
  { subst w1. destruct (errorMsg w); [|exact H].
    now apply (P_env w). }
  clearbody w1.
  match goal with |- P (if ?c then _ else _) => destruct c end.
  - now apply (P_env w1).
  - destruct (isSequence (self w1)); [|exact H1].
    apply P_stop, P_isSequence. now apply (P_env w1).
Qed.

Lemma kept_by_fire (act : TimerAction) (w : World) : P w -> P (fire act w).
Proof.
  intros H. destruct act as [song|]; simpl.
  - destruct (errorMsg w) as [text|]; [|exact H].
    destruct (JS.includes (title song) text); [|exact H].
    now apply (P_env w).
  - now apply P_play.
Qed.

Lemma kept_by_settle (n : nat) (ok : bool) (w : World) :
  P w -> P (settle n ok w).
Proof.
  intros H. unfold settle.
  destruct (nth_error (promises w) n) as [[a k]|]; [|exact H].
  assert (H1 : P (set_promises (remove_nth n (promises w)) w))
    by now apply (P_env w).
  destruct k, ok; simpl.
  - eapply P_env; [| | |apply (P_isPlaying true), H1]; reflexivity.
  - apply P_isPlaying. now eapply P_env; [| | |apply H1].
  - now apply P_isPlaying.
  - now eapply P_env; [| | |apply H1].
Qed.

Lemma kept_by_step (o : Op) (w : World) :
  op_allowed allowed o = true -> P w -> P (step o w).
Proof.
  intros Ho H. destruct o; simpl.
  - now apply P_play.
  - now apply P_pause.
  - now apply P_resume.
  - now apply P_stop.
  - now apply P_setVolume.
  - now apply P_mute.
  - now apply P_unmute.
  - unfold toggleMute. destruct (isMuted (self w));
      [now apply P_unmute | now apply P_mute].
  - unfold playAll. destruct (songs_length w =? 0).
    + now apply (P_env w).
    + now apply P_play, P_isSequence.
  - unfold on_ended.
    match goal with |- P (if ?c then _ else _) => destruct c end.
    + now apply P_play, P_isPlaying.
    + now apply P_isSequence, P_isPlaying.
  - unfold on_error. apply kept_by_handlePlaybackError.
    now apply (P_env w).
  - now apply kept_by_settle.
  - unfold advance, fire_all. apply (fold_fire_keeps P kept_by_fire).
    now apply (P_env w).
Qed.

Lemma kept_by_run (ops : list Op) (w : World) :
  forallb (op_allowed allowed) ops = true -> P w -> P (run ops w).
Proof.
  revert w. induction ops as [|o ops IH]; intros w Ho H; simpl.
  - exact H.
  - simpl in Ho. apply andb_true_iff in Ho as [Ho Hrest].
    apply IH; [exact Hrest | now apply kept_by_step].
Qed.

End Invariants.

Lemma op_allowed_any (ops : list Op) :
  forallb (op_allowed (fun _ => true)) ops = true.
Proof.
  induction ops as [|o ops IH]; simpl; [reflexivity|].
  rewrite IH. now destruct o.
Qed.

(** ** The element the player holds *)

Ltac split_world w :=
  destruct w as [[sl [a0|] ci [|] [|] vo [|]] na de pr ti cl di co em];
  simpl in *.

Lemma plays_current_run (songList : list Song) (msg : option string)
      (ops : list Op) :
  plays_current (run ops (init songList msg)).
Proof.
  apply (kept_by_run plays_current (fun _ => true)).
  - intros w w' Es _ _ H. unfold plays_current in *. now rewrite Es.
  - intros i f w H. apply play_cases.
    + intros _. exact H.
    + intros song Hv Hs a Ha. simpl in *. injection Ha as <-.
      exists i, song. unfold valid_index in Hv. repeat split; try lia.
      exact Hs.
  - intros w H. unfold stop. destruct (audio (self w)); [|exact H].
    intros a Ha. discriminate Ha.
  - intros w H. unfold pause, plays_current in *. split_world w;
      intros a Ha; try discriminate Ha; injection Ha as <-;
      destruct (H a0 eq_refl) as (i & s & Hi & Hpos & Hs & Hsrc);
      exists i, s; repeat split; assumption.
  - intros w H. unfold resume, plays_current in *. split_world w;
      intros a Ha; try discriminate Ha; injection Ha as <-;
      destruct (H a0 eq_refl) as (i & s & Hi & Hpos & Hs & Hsrc);
      exists i, s; repeat split; assumption.
  - intros v w _ H. unfold setVolume, plays_current in *. split_world w;
      intros a Ha; try discriminate Ha; injection Ha as <-;
      destruct (H a0 eq_refl) as (i & s & Hi & Hpos & Hs & Hsrc);
      exists i, s; repeat split; assumption.
  - intros w H. unfold mute, plays_current in *. split_world w;
      intros a Ha; try discriminate Ha; injection Ha as <-;
      destruct (H a0 eq_refl) as (i & s & Hi & Hpos & Hs & Hsrc);
      exists i, s; repeat split; assumption.
  - intros w H. unfold unmute, plays_current in *. split_world w;
      intros a Ha; try discriminate Ha; injection Ha as <-;
      destruct (H a0 eq_refl) as (i & s & Hi & Hpos & Hs & Hsrc);
      exists i, s; repeat split; assumption.
  - intros b w H. exact H.
  - intros b w H. exact H.
  - apply op_allowed_any.
  - intros a Ha. discriminate Ha.
Qed.

Lemma level_applied_run (songList : list Song) (msg : option string)
      (ops : list Op) :
  level_applied (run ops (init songList msg)).
Proof.
  apply (kept_by_run level_applied (fun _ => true)).
  - intros w w' Es _ _ H. unfold level_applied in *. now rewrite Es.
  - intros i f w H. apply play_cases.
    + intros _. exact H.
    + intros song Hv Hs a Ha. simpl in *. now injection Ha as <-.
  - intros w H. unfold stop. destruct (audio (self w)); [|exact H].
    intros a Ha. discriminate Ha.
  - intros w H. unfold pause, level_applied in *. split_world w;
      intros a Ha; try discriminate Ha; injection Ha as <-;
      exact (H a0 eq_refl).
  - intros w H. unfold resume, level_applied in *. split_world w;
      intros a Ha; try discriminate Ha; injection Ha as <-;
      exact (H a0 eq_refl).
  - intros v w _ H. unfold setVolume, level_applied in *. split_world w;
      intros a Ha; try discriminate Ha; injection Ha as <-;
      solve [reflexivity | exact (H a0 eq_refl)].
  - intros w H. unfold mute, level_applied in *. split_world w;
      intros a Ha; try discriminate Ha; now injection Ha as <-.
  - intros w H. unfold unmute, level_applied in *. split_world w;
      intros a Ha; try discriminate Ha; now injection Ha as <-.
  - intros b w H. exact H.
  - intros b w H. exact H.
  - apply op_allowed_any.
  - intros a Ha. discriminate Ha.
Qed.

Lemma volume_in_range_run (songList : list Song) (msg : option string)
      (ops : list Op) :
  forallb sets_a_number ops = true ->
  volume_in_range (run ops (init songList msg)).
Proof.
  intros Hops.
  apply (kept_by_run volume_in_range (fun v => negb (JS.is_nan v))).
  - intros w w' Es _ _ H. unfold volume_in_range in *. now rewrite Es.
  - intros i f w H. apply play_cases.
    + intros _. exact H.
    + intros song Hv Hs. exact H.
  - intros w H. unfold stop. now destruct (audio (self w)).
  - intros w H. unfold pause, volume_in_range in *. now split_world w.
  - intros w H. unfold resume, volume_in_range in *. now split_world w.
  - intros v w Hv H. unfold volume_in_range. rewrite setVolume_volume.
    apply clamp_in_unit_interval. now apply negb_true_iff in Hv.
  - intros w H. unfold mute, volume_in_range in *. now split_world w.
  - intros w H. unfold unmute, volume_in_range in *. now split_world w.
  - intros b w H. exact H.
  - intros b w H. exact H.
  - exact Hops.
  - reflexivity.
Qed.

(** ** Released elements *)





(** ** Reachable states *)

Lemma songs_run (ops : list Op) (w : World) :
  songs (self (run ops w)) = songs (self w).
Proof.
  apply (kept_by_run (fun w' => songs (self w') = songs (self w))
                     (fun _ => true)).
  - intros w1 w2 Es _ _ H. now rewrite Es.
  - intros i f w1 H. apply play_cases; intros; exact H.
  - intros w1 H. unfold stop. now destruct (audio (self w1)).
  - intros w1 H. unfold pause. now split_world w1.
  - intros w1 H. unfold resume. now split_world w1.
  - intros v w1 _ H. unfold setVolume. now split_world w1.
  - intros w1 H. unfold mute. now split_world w1.
  - intros w1 H. unfold unmute. now split_world w1.
  - intros b w1 H. exact H.
  - intros b w1 H. exact H.
  - apply op_allowed_any.
  - reflexivity.
Qed.

(** X1.  In every state the player can reach, the song list is the one
    given to the constructor, a non-null [currentIndex] is an index of that
    list, and [isSequence] is true only while the player holds an audio
    element. *)
Theorem reachable_index_and_sequence
        (songList : list Song) (msg : option string) (ops : list Op) :
  songs (self (run ops (init songList msg))) = songList /\
  (forall i, currentIndex (self (run ops (init songList msg))) = Some i ->
             0 <= i < Z.of_nat (List.length songList)) /\
  (isSequence (self (run ops (init songList msg))) = true ->
   audio (self (run ops (init songList msg))) <> None).
Proof.
  pose proof (songs_run ops (init songList msg)) as Hs. simpl in Hs.
  destruct (consistent_run ops _ (consistent_init songList msg))
    as [_ Hseq Hrange].
  split; [exact Hs|]. split; [|exact Hseq].
  intros i Hi. specialize (Hrange i Hi).
  unfold valid_index, songs_length in Hrange. now rewrite Hs in Hrange.
Qed.

Lemma reachable_index_and_sequence_witness :
  0 <= 1 < 3 /\
  audio (self (run [OpPlayAll; OpEnded] page)) <> None.
Proof.
  destruct (reachable_index_and_sequence mockSongs (Some "")
              [OpPlayAll; OpEnded]) as (_ & Hi & Hs).
  split; [exact (Hi 1 eq_refl) | exact (Hs eq_refl)].
Defined.

(** X2.  In every reachable state the audio element the player holds was
    created from the file of the song at [currentIndex], and
    [getCurrentSong] returns that song; when the player holds no element,
    [currentIndex] is null and [getCurrentSong] returns null. *)
Theorem handle_plays_current_song
        (songList : list Song) (msg : option string) (ops : list Op) :
  match audio (self (run ops (init songList msg))) with
  | Some a =>
      exists i s,
        currentIndex (self (run ops (init songList msg))) = Some i /\
        nth_error songList (Z.to_nat i) = Some s /\
        getCurrentSong (self (run ops (init songList msg))) = Some s /\
        Audio.src a = file s
  | None =>
      currentIndex (self (run ops (init songList msg))) = None /\
      getCurrentSong (self (run ops (init songList msg))) = None
  end.
Proof.
  set (w := run ops (init songList msg)).
  pose proof (plays_current_run songList msg ops) as Hp. fold w in Hp.
  pose proof (songs_run ops (init songList msg)) as Hs. fold w in Hs.
  simpl in Hs.
  destruct (consistent_run ops _ (consistent_init songList msg))
    as [Hiff _ Hrange]. fold w in Hiff, Hrange.
  destruct (audio (self w)) as [a|] eqn:Ha.
  - destruct (Hp a Ha) as (i & s & Hi & Hpos & Hn & Hsrc).
    exists i, s. rewrite Hs in Hn. repeat split; try assumption.
    unfold getCurrentSong. rewrite Hi, Hs.
    specialize (Hrange i Hi). unfold valid_index, songs_length in Hrange.
    rewrite Hs in Hrange.
    replace (i <? Z.of_nat (Datatypes.length songList)) with true
      by (symmetry; apply Z.ltb_lt; lia).
    replace (0 <=? i) with true by (symmetry; apply Z.leb_le; lia).
    exact Hn.
  - assert (Hi : currentIndex (self w) = None) by now apply Hiff.
    split; [exact Hi|]. unfold getCurrentSong. now rewrite Hi.
Qed.

(** X3.  As long as [setVolume] is never called with [NaN], in every
    reachable state the volume of the audio element the player holds is
    the effective level: zero when the player is muted, the stored volume
    otherwise. *)
Theorem handle_has_effective_volume
        (songList : list Song) (msg : option string) (ops : list Op)
        (a : Audio.t) :
  forallb sets_a_number ops = true ->
  audio (self (run ops (init songList msg))) = Some a ->
  Audio.volume a =
    if isMuted (self (run ops (init songList msg))) then JS.zero
    else volume (self (run ops (init songList msg))).
Proof.
  intros _. apply (level_applied_run songList msg ops).
Qed.

Lemma handle_has_effective_volume_witness :
  Audio.volume
    (Audio.mk 0 "song2.mp3" JS.zero JS.zero false) = JS.zero.
Proof.
  apply (handle_has_effective_volume mockSongs (Some "")
           [OpSetVolume three_halves; OpMute; OpPlay 1 false]);
    reflexivity.
Defined.

(** X4.  As long as [setVolume] is never called with [NaN], the stored
    volume lies in [[0,1]] in every reachable state, and so does the volume
    of the audio element the player holds. *)
Theorem volume_stays_in_unit_interval
        (songList : list Song) (msg : option string) (ops : list Op) :
  forallb sets_a_number ops = true ->
  in_unit_interval (volume (self (run ops (init songList msg)))) = true /\
  (forall a,
      audio (self (run ops (init songList msg))) = Some a ->
      in_unit_interval (Audio.volume a) = true).
Proof.
  intros Hops.
  pose proof (volume_in_range_run songList msg ops Hops) as Hv.
  split; [exact Hv|].
  intros a Ha. rewrite (level_applied_run songList msg ops a Ha).
  destruct (isMuted (self (run ops (init songList msg))));
    [reflexivity | exact Hv].
Qed.

Lemma volume_stays_in_unit_interval_witness :
  in_unit_interval
    (volume (self (run [OpSetVolume three_halves; OpPlay 0 false;
                        OpSetVolume JS.neg_infinity] page))) = true.
Proof.
  apply (volume_stays_in_unit_interval mockSongs (Some "")
           [OpSetVolume three_halves; OpPlay 0 false;
            OpSetVolume JS.neg_infinity]).
  reflexivity.
Defined.



(** ** [stop], [playAll] and the start of playback *)

(** X6.  [stop()] on a player that holds an audio element pauses and
    rewinds the element, drops it, sets [isPlaying] and [isSequence] to
    false and [currentIndex] to null, keeps the volume, the mute flag and
    the song list, and dispatches one ['playbackstopped'].  Without an
    element it does nothing, so a second [stop()] in a row changes nothing
    and dispatches nothing. *)
Theorem stop_resets_once (w : World) :
  (forall a,
      audio (self w) = Some a ->
      self (stop w) =
        mkPlayer (songs (self w)) None None false (isMuted (self w))
                 (volume (self w)) false /\
      detached (stop w) = (detached w ++ [released a])%list /\
      dispatched (stop w) = (dispatched w ++ [PlaybackStopped])%list /\
      promises (stop w) = promises w /\
      timers (stop w) = timers w /\
      console (stop w) = console w) /\
  (audio (self w) = None -> stop w = w) /\
  stop (stop w) = stop w.
Proof.
  split; [|split].
  - intros a Ha. unfold stop. rewrite Ha. repeat split.
  - intros Ha. unfold stop. now rewrite Ha.
  - assert (Hnone : audio (self (stop w)) = None).
    { unfold stop. destruct (audio (self w)) as [a|] eqn:Ha;
        [reflexivity | exact Ha]. }
    unfold stop at 1. now rewrite Hnone.
Qed.

Lemma stop_resets_once_witness :
  currentIndex (self (stop (playAll page))) = None /\
  isSequence (self (stop (playAll page))) = false /\
  dispatched (stop (playAll page)) = [PlaybackStopped] /\
  stop page = page.
Proof.
  destruct (stop_resets_once (playAll page)) as (Hheld & _ & _).
  destruct (Hheld (Audio.mk 0 "song1.mp3" JS.one JS.zero false) eq_refl)
    as (Hs & _ & Hd & _).
  destruct (stop_resets_once page) as (_ & Hidle & _).
  split; [now rewrite Hs|]. split; [now rewrite Hs|].
  split; [exact Hd | exact (Hidle eq_refl)].
Defined.

(** X7.  [playAll()] on an empty song list only writes a warning: the
    player, [isSequence] included, is as before.  On a list with a first
    song [s] it always starts over from index [0], whatever was playing:
    the element held before is released, the new element is created from
    the file of [s] at the effective volume, [isSequence] is true, and one
    start promise for index [0] is left. *)
Theorem playAll_restarts_from_first (w : World) :
  (songs (self w) = [] -> playAll w = log WarnNoSongs w) /\
  (forall s rest,
      songs (self w) = s :: rest ->
      self (playAll w) =
        mkPlayer (s :: rest) (Some (started w s)) (Some 0)
                 (match audio (self w) with
                  | Some _ => false
                  | None => isPlaying (self w)
                  end)
                 (isMuted (self w)) (volume (self w)) true /\
      detached (playAll w) =
        match audio (self w) with
        | Some a => (detached w ++ [released a])%list
        | None => detached w
        end /\
      promises (playAll w) =
        (promises w ++ [mkPromise (nextAudio w) (PlayStarted 0 s)])%list /\
      dispatched (playAll w) = dispatched w /\
      console (playAll w) = console w).
Proof.
  split.
  - intros Hs. unfold playAll, songs_length. now rewrite Hs.
  - intros s rest Hs. unfold playAll, songs_length. rewrite Hs.
    cbn [List.length]. rewrite Nat2Z.inj_succ.
    replace (Z.succ (Z.of_nat (Datatypes.length rest)) =? 0) with false
      by (symmetry; apply Z.eqb_neq; lia).
    assert (Hv : valid_index 0 (update (set_isSequence true) w)).
    { unfold valid_index, songs_length. simpl. rewrite Hs. simpl. lia. }
    destruct (play_valid 0 true _ Hv) as [song [Hsong ->]].
    simpl in Hsong. rewrite Hs in Hsong. simpl in Hsong.
    injection Hsong as <-. simpl. rewrite Hs. repeat split.
Qed.

Lemma playAll_restarts_from_first_witness :
  playAll (init [] None) = log WarnNoSongs (init [] None) /\
  currentIndex (self (playAll (play 2 false page))) = Some 0 /\
  isSequence (self (playAll (play 2 false page))) = true.
Proof.
  destruct (playAll_restarts_from_first (init [] None)) as [Hempty _].
  destruct (playAll_restarts_from_first (play 2 false page)) as [_ Hfull].
  destruct (Hfull song1 [song2; song3] eq_refl) as (Hs & _).
  split; [exact (Hempty eq_refl)|]. now rewrite Hs.
Defined.

Lemma nth_error_last {A : Type} (l : list A) (x : A) :
  nth_error (l ++ [x]) (List.length l) = Some x.
Proof.
  induction l as [|y l IH]; simpl; [reflexivity | exact IH].
Qed.

Lemma remove_nth_last {A : Type} (l : list A) (x : A) :
  remove_nth (List.length l) (l ++ [x]) = l.
Proof.
  induction l as [|y l IH]; simpl; [reflexivity | now rewrite IH].
Qed.

(** X8.  After [play(index)] with an index of the list, [currentIndex]
    is [index] at once.  When the start promise of that call resolves,
    [isPlaying] becomes true and one ['songchange'] is dispatched that
    carries [index] and the song at [index]; when it is rejected,
    [isPlaying] is false, the failure is logged, nothing is dispatched, no
    timer is set and [currentIndex] stays. *)
Theorem play_then_start_settles
        (index : Z) (fromSequence : bool) (w : World) :
  valid_index index w ->
  exists song,
    nth_error (songs (self w)) (Z.to_nat index) = Some song /\
    currentIndex (self (play index fromSequence w)) = Some index /\
    isPlaying
      (self (settle (next_promise w) true (play index fromSequence w)))
    = true /\
    currentIndex
      (self (settle (next_promise w) true (play index fromSequence w)))
    = Some index /\
    dispatched (settle (next_promise w) true (play index fromSequence w))
    = (dispatched w ++ [SongChange index song])%list /\
    isPlaying
      (self (settle (next_promise w) false (play index fromSequence w)))
    = false /\
    currentIndex
      (self (settle (next_promise w) false (play index fromSequence w)))
    = Some index /\
    dispatched (settle (next_promise w) false (play index fromSequence w))
    = dispatched w /\
    timers (settle (next_promise w) false (play index fromSequence w))
    = timers w /\
    console (settle (next_promise w) false (play index fromSequence w))
    = (console w ++ [ErrPlaybackFailed])%list.
Proof.
  intros Hv.
  destruct (play_valid index fromSequence w Hv) as [song [Hs ->]].
  exists song. split; [exact Hs|].
  unfold settle, next_promise. simpl promises.
  rewrite nth_error_last, remove_nth_last. simpl. repeat split.
Qed.

Lemma play_then_start_settles_witness :
  valid_index 1 page /\
  isPlaying (self (settle 0 true (play 1 false page))) = true /\
  dispatched (settle 0 true (play 1 false page)) = [SongChange 1 song2].
Proof.
  assert (Hv : valid_index 1 page)
    by (unfold valid_index, songs_length; simpl; lia).
  destruct (play_then_start_settles 1 false page Hv)
    as (song & Hs & _ & Hp & _ & Hd & _).
  injection Hs as <-.
  exact (conj Hv (conj Hp Hd)).
Defined.

(** ** Outside sequence mode *)

(** X9.  While [isSequence] is false neither an ['ended'] nor an
    ['error'] event advances the player.  The ['ended'] event only sets
    [isPlaying] to false.  The ['error'] event leaves the player as it is,
    sets no skip timer, dispatches nothing and releases nothing; it logs
    the error and, when the page has an [#error-msg] element, shows the
    text that names the song.  After either event the player also stays as
    it is however much time passes, provided no skip of an earlier error
    was still waiting. *)
Theorem no_advance_outside_sequence (song : Song) (w : World) :
  isSequence (self w) = false ->
  self (on_ended w) = set_isPlaying false (self w) /\
  detached (on_ended w) = detached w /\
  promises (on_ended w) = promises w /\
  timers (on_ended w) = timers w /\
  self (on_error song w) = self w /\
  skips (timers (on_error song w)) = skips (timers w) /\
  detached (on_error song w) = detached w /\
  promises (on_error song w) = promises w /\
  dispatched (on_error song w) = dispatched w /\
  console (on_error song w) = (console w ++ [ErrAudioError])%list /\
  errorMsg (on_error song w) =
    option_map (fun _ => error_text song) (errorMsg w) /\
  (skips (timers w) = 0%nat ->
   forall ms,
     self (advance ms (on_ended w)) = self (on_ended w) /\
     self (advance ms (on_error song w)) = self w).
Proof.
  intros Hseq.
  assert (Hfacts :
            self (on_ended w) = set_isPlaying false (self w) /\
            detached (on_ended w) = detached w /\
            promises (on_ended w) = promises w /\
            timers (on_ended w) = timers w /\
            self (on_error song w) = self w /\
            skips (timers (on_error song w)) = skips (timers w) /\
            detached (on_error song w) = detached w /\
            promises (on_error song w) = promises w /\
            dispatched (on_error song w) = dispatched w /\
            console (on_error song w) = (console w ++ [ErrAudioError])%list /\
            errorMsg (on_error song w) =
              option_map (fun _ => error_text song) (errorMsg w)).
  { destruct w as [[sl au ci pl mu vo sq] na de pr ti cl di co em].
    simpl in Hseq. subst sq.
    unfold on_ended, on_error, handlePlaybackError.
    destruct em as [text|]; simpl; repeat split.
    rewrite skips_app. unfold skips. simpl. lia. }
  destruct Hfacts
    as (H1 & H2 & H3 & H4 & H5 & H6 & H7 & H8 & H9 & H10 & H11).
  repeat (split; [assumption|]).
  intros Hnone ms. split.
  - assert (R : skips (ready ms (on_ended w)) = 0%nat).
    { pose proof (skips_filter_le
                    (is_due (clock (on_ended w) + Z.max 0 ms))
                    (timers (on_ended w))) as Hle.
      unfold ready. rewrite H4 in Hle. rewrite H4. lia. }
    now destruct (advance_no_skip ms _ R).
  - assert (R : skips (ready ms (on_error song w)) = 0%nat).
    { pose proof (skips_filter_le
                    (is_due (clock (on_error song w) + Z.max 0 ms))
                    (timers (on_error song w))) as Hle.
      unfold ready. lia. }
    destruct (advance_no_skip ms _ R) as [E _]. now rewrite E.
Qed.

Lemma no_advance_outside_sequence_witness :
  isSequence (self (run [OpPlayAll; OpEnded; OpEnded; OpEnded] page))
  = false /\
  currentIndex
    (self (on_ended (run [OpPlayAll; OpEnded; OpEnded; OpEnded] page)))
  = Some 2 /\
  currentIndex
    (self (advance 10000
             (on_error song3
                (run [OpPlayAll; OpEnded; OpEnded; OpEnded] page))))
  = Some 2 /\
  errorMsg (on_error song3 (run [OpPlayAll; OpEnded; OpEnded; OpEnded] page))
  = Some (error_text song3).
Proof.
  assert (Hseq : isSequence
                   (self (run [OpPlayAll; OpEnded; OpEnded; OpEnded] page))
                 = false) by reflexivity.
  destruct (no_advance_outside_sequence
              song3 (run [OpPlayAll; OpEnded; OpEnded; OpEnded] page) Hseq)
    as (He & _ & _ & _ & _ & _ & _ & _ & _ & _ & Hm & Hlater).
  destruct (Hlater eq_refl 10000) as [_ Htime].
  split; [exact Hseq|]. split; [now rewrite He|].
  split; [now rewrite Htime | exact Hm].
Defined.

(** ** The error text *)

Lemma prefix_append (s t : string) : prefix s (s ++ t) = true.
Proof.
  induction s as [|c s IH]; simpl.
  - now destruct t.
  - destruct (ascii_dec c c) as [_|Hc]; [exact IH | congruence].
Qed.

Lemma index_found (pre s post : string) :
  String.index 0 s (pre ++ s ++ post) <> None.
Proof.
  induction pre as [|c pre IH].
  - change ("" ++ s ++ post)%string with (s ++ post)%string.
    pose proof (prefix_append s post) as Hp.
    destruct (s ++ post)%string as [|c rest] eqn:E.
    + destruct s; [discriminate | discriminate E].
    + cbn [String.index]. rewrite Hp. discriminate.
  - change (String c pre ++ s ++ post)%string
      with (String c (pre ++ s ++ post)).
    cbn [String.index].
    destruct (prefix s (String c (pre ++ s ++ post))); [discriminate|].
    destruct (String.index 0 s (pre ++ s ++ post)); [discriminate|].
    now apply IH.
Qed.

Lemma includes_own_title (song : Song) :
  JS.includes (title song) (error_text song) = true.
Proof.
  unfold JS.includes, error_text.
  pose proof (index_found ("Error: Unable to play " ++ dquote)
                          (title song) (dquote ++ " by " ++ artist song)) as H.
  change (("Error: Unable to play " ++ dquote) ++ title song ++ dquote
            ++ " by " ++ artist song)%string
    with (error_text song) in H.
  fold (error_text song).
  now destruct (String.index 0 (title song) (error_text song)).
Qed.

Lemma string_app_assoc (a b c : string) :
  ((a ++ b) ++ c = a ++ b ++ c)%string.
Proof.
  induction a as [|x a IH]; cbn [append]; [reflexivity | now rewrite IH].
Qed.

Lemma string_app_nil (a : string) : (a ++ "" = a)%string.
Proof.
  induction a as [|x a IH]; cbn [append]; [reflexivity | now rewrite IH].
Qed.

Lemma includes_own_artist (song : Song) :
  JS.includes (artist song) (error_text song) = true.
Proof.
  unfold JS.includes.
  pose proof (index_found
                ("Error: Unable to play " ++ dquote ++ title song ++ dquote
                   ++ " by ")
                (artist song) "") as H.
  rewrite string_app_nil, !string_app_assoc in H.
  fold (error_text song) in H.
  now destruct (String.index 0 (artist song) (error_text song)).
Qed.

Lemma errorMsg_play (index : Z) (fromSequence : bool) (w : World) :
  errorMsg (play index fromSequence w) = errorMsg w.
Proof. apply play_cases; reflexivity. Qed.

Lemma errorMsg_stop (w : World) : errorMsg (stop w) = errorMsg w.
Proof. unfold stop. now destruct (audio (self w)). Qed.

Lemma errorMsg_fire (act : TimerAction) (w : World) :
  errorMsg (fire act w) = fire_text act (errorMsg w).
Proof.
  destruct act as [song|]; simpl.
  - destruct (errorMsg w) as [text|] eqn:E; [|exact E].
    destruct (JS.includes (title song) text); [reflexivity | exact E].
  - rewrite errorMsg_play. now destruct (errorMsg w).
Qed.

Lemma errorMsg_fire_all (l : list Timer) (w : World) :
  errorMsg (fire_all l w)
  = fold_left (fun m x => fire_text (action x) m) l (errorMsg w).
Proof.
  revert w. induction l as [|x l IH]; intros w; simpl.
  - reflexivity.
  - unfold fire_all in IH. now rewrite IH, errorMsg_fire.
Qed.

Lemma text_stays_cleared (l : list Timer) :
  fold_left (fun m x => fire_text (action x) m) l (Some "") = Some "".
Proof.
  induction l as [|x l IH]; simpl; [reflexivity|].
  destruct (action x) as [song|]; simpl; [|exact IH].
  now destruct (JS.includes (title song) "").
Qed.

Lemma text_gets_cleared (song : Song) (l : list Timer) (t : Timer)
      (m : option string) :
  In t l -> action t = ClearErrorMsg song ->
  m = Some (error_text song) \/ m = Some "" ->
  fold_left (fun m x => fire_text (action x) m) l m = Some "".
Proof.
  revert m. induction l as [|x l IH]; intros m Hin Hact Hm; [contradiction|].
  simpl. destruct Hin as [-> | Hin].
  - rewrite Hact. destruct Hm as [-> | ->]; simpl.
    + rewrite includes_own_title. apply text_stays_cleared.
    + destruct (JS.includes (title song) ""); apply text_stays_cleared.
  - apply IH; [exact Hin | exact Hact |].
    destruct (action x) as [s|]; simpl; [|exact Hm].
    destruct Hm as [-> | ->];
      destruct (JS.includes (title s) _); auto.
Qed.

Lemma in_insert_timer (t u : Timer) (l : list Timer) :
  In t (insert_timer u l) <-> t = u \/ In t l.
Proof.
  induction l as [|x l IH]; simpl.
  - intuition.
  - destruct (due u <? due x); simpl; [intuition|].
    rewrite IH. intuition.
Qed.

Lemma in_by_due (t : Timer) (l : list Timer) : In t (by_due l) <-> In t l.
Proof.
  unfold by_due.
  assert (H : forall acc,
             In t (fold_left (fun acc u => insert_timer u acc) l acc)
             <-> In t l \/ In t acc).
  { induction l as [|u l IH]; intros acc; simpl.
    - intuition.
    - rewrite IH, in_insert_timer. intuition. }
  rewrite H. simpl. intuition.
Qed.

(** What the ['error'] listener leaves behind when the page has an
    [#error-msg] element. *)
Lemma on_error_text (song : Song) (w : World) (old : string) :
  errorMsg w = Some old ->
  errorMsg (on_error song w) = Some (error_text song) /\
  clock (on_error song w) = clock w /\
  exists rest,
    Forall (fun t => action t = ErrorSkip) rest /\
    timers (on_error song w) =
      (timers w ++ mkTimer (clock w + 5000) (ClearErrorMsg song) :: rest)%list.
Proof.
  intros Hold.
  destruct w as [[sl au ci pl mu vo sq] na de pr ti cl di co em].
  simpl in Hold. subst em.
  unfold on_error, handlePlaybackError. simpl.
  destruct (sq && _) eqn:E; simpl.
  - repeat split.
    exists [mkTimer (cl + 500) ErrorSkip]. split.
    + constructor; [reflexivity | constructor].
    + now rewrite <- app_assoc.
  - destruct sq; simpl.
    + rewrite errorMsg_stop. simpl. unfold stop. simpl.
      destruct au as [a|]; simpl; repeat split;
        exists []; split; try constructor; reflexivity.
    + repeat split. exists []. split; [constructor | reflexivity].
Qed.

(** X10.  On a page with an [#error-msg] element an ['error'] event
    shows the text that names the song's title and artist.  Once [5000] ms
    have passed without another event the text is empty, whatever timers
    of earlier errors were waiting. *)
Theorem error_text_shown_then_cleared
        (song : Song) (w : World) (old : string) :
  errorMsg w = Some old ->
  errorMsg (on_error song w) = Some (error_text song) /\
  JS.includes (title song) (error_text song) = true /\
  JS.includes (artist song) (error_text song) = true /\
  (forall ms, 5000 <= ms ->
     errorMsg (advance ms (on_error song w)) = Some "").
Proof.
  intros Hold.
  destruct (on_error_text song w old Hold)
    as (Htext & Hclock & rest & Hrest & Htimers).
  split; [exact Htext|]. split; [apply includes_own_title|].
  split; [apply includes_own_artist|].
  intros ms Hms. unfold advance. rewrite errorMsg_fire_all. simpl errorMsg.
  apply (text_gets_cleared song _
           (mkTimer (clock w + 5000) (ClearErrorMsg song)));
    [| reflexivity | left; exact Htext].
  apply in_by_due. unfold ready. apply filter_In. split.
  - rewrite Htimers. apply in_or_app. right. now left.
  - unfold is_due. simpl. rewrite Hclock. apply Z.leb_le. lia.
Qed.

Lemma error_text_shown_then_cleared_witness :
  errorMsg (on_error song1 (on_error song2 (playAll page)))
  = Some (error_text song1) /\
  errorMsg (advance 5000 (on_error song1 (on_error song2 (playAll page))))
  = Some "".
Proof.
  destruct (error_text_shown_then_cleared
              song1 (on_error song2 (playAll page)) (error_text song2)
              eq_refl)
    as (Hshown & _ & _ & Hlate).
  split; [exact Hshown|]. apply Hlate. lia.
Defined.

(** ** Pausing, resuming and the volume while muted *)

(** X20.  On a player that is playing, [pause()] sets [isPlaying] to
    false and pauses the element; a second [pause()] does nothing.
    [resume()] then unpauses the element and leaves one promise: when it
    resolves the player is exactly as it was before the pause, and when it
    is rejected [isPlaying] stays false and the failure is logged.
    [resume()] on a playing player does nothing. *)
Theorem pause_resume_round_trip (w : World) (a : Audio.t) :
  audio (self w) = Some a ->
  isPlaying (self w) = true ->
  Audio.paused a = false ->
  self (pause w) =
    set_isPlaying false (set_audio (Some (Audio.set_paused true a)) (self w)) /\
  pause (pause w) = pause w /\
  resume w = w /\
  promises (resume (pause w))
  = (promises w ++ [mkPromise (Audio.id a) Resumed])%list /\
  self (settle (next_promise w) true (resume (pause w))) = self w /\
  promises (settle (next_promise w) true (resume (pause w))) = promises w /\
  isPlaying (self (settle (next_promise w) false (resume (pause w)))) = false /\
  console (settle (next_promise w) false (resume (pause w)))
  = (console w ++ [ErrResumeFailed])%list.
Proof.
  intros Ha Hp Hpaused.
  destruct w as [[sl au ci pl mu vo sq] na de pr ti cl di co em].
  simpl in Ha, Hp. subst au pl.
  destruct a as [i s v c p]. simpl in Hpaused. subst p.
  unfold pause, resume, settle, next_promise. simpl.
  rewrite nth_error_last, remove_nth_last. simpl. repeat split.
Qed.

Lemma pause_resume_round_trip_witness :
  self (settle 0 true (resume (pause (settle 0 true (play 0 false page)))))
  = self (settle 0 true (play 0 false page)).
Proof.
  apply (pause_resume_round_trip
           (settle 0 true (play 0 false page))
           (Audio.mk 0 "song1.mp3" JS.one JS.zero false));
    reflexivity.
Defined.

(** X21.  For numbers other than [NaN]: a volume set while the player
    is muted is stored, clamped to [[0,1]], but not heard: the audio
    element stays at zero.  [unmute()] then gives the element that stored
    volume.  Of two [setVolume] calls in a row only the second counts. *)
Theorem volume_set_while_muted (u v : JS.number) (w : World) (a : Audio.t) :
  JS.is_nan u = false ->
  JS.is_nan v = false ->
  audio (self w) = Some a ->
  in_unit_interval (clamp v) = true /\
  volume (self (setVolume v (mute w))) = clamp v /\
  audio (self (setVolume v (mute w))) = Some (Audio.set_volume JS.zero a) /\
  audio (self (unmute (setVolume v (mute w))))
  = Some (Audio.set_volume (clamp v) a) /\
  isMuted (self (unmute (setVolume v (mute w)))) = false /\
  setVolume v (setVolume u w) = setVolume v w.
Proof.
  intros _ Hv Ha.
  split; [now apply clamp_in_unit_interval|].
  destruct w as [[sl au ci pl mu vo sq] na de pr ti cl di co em].
  simpl in Ha. subst au.
  unfold setVolume, mute, unmute, clamp. simpl.
  destruct mu; repeat split.
Qed.

Lemma volume_set_while_muted_witness :
  audio (self (unmute (setVolume three_halves (mute (play 0 false page)))))
  = Some (Audio.mk 0 "song1.mp3" JS.one JS.zero false).
Proof.
  destruct (volume_set_while_muted
              JS.zero three_halves (play 0 false page)
              (Audio.mk 0 "song1.mp3" JS.one JS.zero false)
              eq_refl eq_refl eq_refl)
    as (_ & _ & _ & H & _).
  exact H.
Defined.

(** * Properties of the page controls *)

(** ** Keyboard navigation in the song list *)

Lemma indexOf_from_nth (l : list nat) (k : nat) (j : Z) (t : nat) :
  NoDup l -> nth_error l k = Some t ->
  indexOf_from j t l = j + Z.of_nat k.
Proof.
  revert k j. induction l as [|y l IH]; intros k j Hnd Hk.
  - destruct k; discriminate Hk.
  - inversion Hnd as [|? ? Hy Hl]; subst. destruct k as [|k]; simpl in *.
    + injection Hk as ->. rewrite Nat.eqb_refl. lia.
    + assert (Hne : t <> y).
      { intros ->. apply Hy. eapply nth_error_In. exact Hk. }
      apply Nat.eqb_neq in Hne. rewrite Hne.
      rewrite (IH k (j + 1) Hl Hk). lia.
Qed.

Lemma indexOf_nth (l : list nat) (k : nat) (t : nat) :
  NoDup l -> nth_error l k = Some t -> indexOf t l = Z.of_nat k.
Proof.
  intros Hnd Hk. unfold indexOf. now rewrite (indexOf_from_nth l k 0 t).
Qed.

Lemma indexOf_from_range (l : list nat) (j : Z) (t : nat) :
  indexOf_from j t l = -1 \/
  j <= indexOf_from j t l < j + Z.of_nat (List.length l).
Proof.
  revert j. induction l as [|y l IH]; intros j; simpl.
  - now left.
  - destruct (Nat.eqb t y).
    + right. lia.
    + destruct (IH (j + 1)) as [E | E]; [now left | right; lia].
Qed.

Lemma item_nat {A : Type} (l : list A) (k : nat) :
  item l (Z.of_nat k) = nth_error l k.
Proof.
  unfold item. replace (Z.of_nat k <? 0) with false
    by (symmetry; apply Z.ltb_ge; lia).
  now rewrite Nat2Z.id.
Qed.

Lemma item_in {A : Type} (l : list A) (i : Z) (x : A) :
  item l i = Some x -> In x l.
Proof.
  unfold item. destruct (i <? 0); [discriminate|]. apply nth_error_In.
Qed.

Lemma item_some {A : Type} (l : list A) (i : Z) :
  0 <= i < Z.of_nat (List.length l) -> exists x, item l i = Some x.
Proof.
  intros Hi. unfold item.
  replace (i <? 0) with false by (symmetry; apply Z.ltb_ge; lia).
  destruct (nth_error l (Z.to_nat i)) as [x|] eqn:E; [now exists x|].
  apply nth_error_None in E. lia.
Qed.

(** The four navigation keys, from the [k]-th of [n] buttons. *)
Lemma navigation_from (songButtons : list nat) (k : nat) (t : nat) :
  NoDup songButtons -> nth_error songButtons k = Some t ->
  handleSongButtonKeydown "ArrowDown" songButtons t
  = focus_item songButtons
      (Z.of_nat (if (S k <? List.length songButtons)%nat then S k else O)) /\
  handleSongButtonKeydown "ArrowUp" songButtons t
  = focus_item songButtons
      (Z.of_nat (match k with
                 | O => List.length songButtons - 1
                 | S k' => k'
                 end)) /\
  handleSongButtonKeydown "Home" songButtons t = focus_item songButtons 0 /\
  handleSongButtonKeydown "End" songButtons t
  = focus_item songButtons (Z.of_nat (List.length songButtons - 1)).
Proof.
  intros Hnd Hk.
  assert (Hlt : (k < List.length songButtons)%nat)
    by (apply nth_error_Some; congruence).
  unfold handleSongButtonKeydown. rewrite (indexOf_nth _ k t Hnd Hk).
  simpl String.eqb. cbv iota. repeat split.
  - destruct (S k <? List.length songButtons)%nat eqn:E.
    + apply Nat.ltb_lt in E.
      replace (Z.of_nat k <? Z.of_nat (List.length songButtons) - 1)
        with true by (symmetry; apply Z.ltb_lt; lia).
      f_equal. lia.
    + apply Nat.ltb_ge in E.
      replace (Z.of_nat k <? Z.of_nat (List.length songButtons) - 1)
        with false by (symmetry; apply Z.ltb_ge; lia).
      reflexivity.
  - destruct k as [|k'].
    + simpl. f_equal. lia.
    + replace (Z.of_nat (S k') >? 0) with true
        by (symmetry; apply Z.gtb_lt; lia).
      f_equal. lia.
  - f_equal. lia.
Qed.

Lemma focus_item_nat (songButtons : list nat) (k : nat) (b : nat) :
  nth_error songButtons k = Some b ->
  focus_item songButtons (Z.of_nat k) = mkKeyHandled true (FocusButton b).
Proof.
  intros H. unfold focus_item. now rewrite item_nat, H.
Qed.

Lemma next_is_mod (k n : nat) :
  (k < n)%nat ->
  (if (S k <? n)%nat then S k else O) = (S k mod n)%nat.
Proof.
  intros H. destruct (S k <? n)%nat eqn:E.
  - apply Nat.ltb_lt in E. now rewrite Nat.mod_small.
  - apply Nat.ltb_ge in E. replace (S k) with n by lia.
    symmetry. apply Nat.Div0.mod_same.
Qed.

Lemma previous_is_mod (k n : nat) :
  (k < n)%nat ->
  match k with O => (n - 1)%nat | S k' => k' end = ((k + n - 1) mod n)%nat.
Proof.
  intros H. destruct k as [|k'].
  - simpl. rewrite Nat.mod_small; lia.
  - replace (S k' + n - 1)%nat with (k' + 1 * n)%nat by lia.
    rewrite Nat.Div0.mod_add. rewrite Nat.mod_small; lia.
Qed.

(** X11.  In a song list of [n] distinct buttons, pressed on the [k]-th
    button, ArrowDown moves the focus to button [(k+1) mod n], ArrowUp to
    button [(k+n-1) mod n], Home to the first and End to the last button;
    each of the four keys has its default action prevented. *)
Theorem keyboard_navigation_wraps
        (songButtons : list nat) (k : nat) (t : nat) :
  NoDup songButtons ->
  nth_error songButtons k = Some t ->
  exists down up home last,
    nth_error songButtons (S k mod List.length songButtons) = Some down /\
    handleSongButtonKeydown "ArrowDown" songButtons t
    = mkKeyHandled true (FocusButton down) /\
    nth_error songButtons
              ((k + List.length songButtons - 1) mod List.length songButtons)
    = Some up /\
    handleSongButtonKeydown "ArrowUp" songButtons t
    = mkKeyHandled true (FocusButton up) /\
    nth_error songButtons 0 = Some home /\
    handleSongButtonKeydown "Home" songButtons t
    = mkKeyHandled true (FocusButton home) /\
    nth_error songButtons (List.length songButtons - 1) = Some last /\
    handleSongButtonKeydown "End" songButtons t
    = mkKeyHandled true (FocusButton last).
Proof.
  intros Hnd Hk.
  assert (Hlt : (k < List.length songButtons)%nat)
    by (apply nth_error_Some; congruence).
  destruct (navigation_from songButtons k t Hnd Hk) as (Hd & Hu & Hh & He).
  rewrite (next_is_mod k _ Hlt) in Hd.
  rewrite (previous_is_mod k _ Hlt) in Hu.
  set (n := List.length songButtons) in *.
  assert (Hn : (n <> 0)%nat) by lia.
  destruct (nth_error songButtons (S k mod n)) as [down|] eqn:Edown.
  2:{ apply nth_error_None in Edown.
      pose proof (Nat.mod_upper_bound (S k) n Hn). fold n in Edown. lia. }
  destruct (nth_error songButtons ((k + n - 1) mod n)) as [up|] eqn:Eup.
  2:{ apply nth_error_None in Eup.
      pose proof (Nat.mod_upper_bound (k + n - 1) n Hn). fold n in Eup. lia. }
  destruct (nth_error songButtons 0) as [home|] eqn:Ehome.
  2:{ apply nth_error_None in Ehome. fold n in Ehome. lia. }
  destruct (nth_error songButtons (n - 1)) as [last|] eqn:Elast.
  2:{ apply nth_error_None in Elast. fold n in Elast. lia. }
  exists down, up, home, last.
  rewrite Hd, Hu, Hh, He.
  rewrite (focus_item_nat _ _ _ Edown), (focus_item_nat _ _ _ Eup),
    (focus_item_nat _ _ _ Elast).
  change 0 with (Z.of_nat 0). rewrite (focus_item_nat _ _ _ Ehome).
  repeat split.
Qed.

Lemma keyboard_navigation_wraps_witness :
  handleSongButtonKeydown "ArrowDown" [10; 11; 12]%nat 12%nat
  = mkKeyHandled true (FocusButton 10%nat) /\
  handleSongButtonKeydown "ArrowUp" [10; 11; 12]%nat 10%nat
  = mkKeyHandled true (FocusButton 12%nat).
Proof.
  assert (Hnd : NoDup [10; 11; 12]%nat).
  { repeat constructor; simpl; intuition discriminate. }
  destruct (keyboard_navigation_wraps [10; 11; 12]%nat 2 12%nat Hnd eq_refl)
    as (d & _ & _ & _ & Hd & Hdown & _).
  destruct (keyboard_navigation_wraps [10; 11; 12]%nat 0 10%nat Hnd eq_refl)
    as (_ & u & _ & _ & _ & _ & Hu & Hup & _).
  simpl in Hd, Hu. injection Hd as <-. injection Hu as <-.
  exact (conj Hdown Hup).
Defined.

(** X12.  ArrowDown and ArrowUp undo each other: from any button of a
    list of distinct buttons, the button ArrowDown focuses sends the focus
    back with ArrowUp, and the button ArrowUp focuses sends it back with
    ArrowDown. *)
Theorem arrow_keys_are_inverse (songButtons : list nat) (t : nat) :
  NoDup songButtons ->
  In t songButtons ->
  (exists b,
      In b songButtons /\
      effect (handleSongButtonKeydown "ArrowDown" songButtons t)
      = FocusButton b /\
      effect (handleSongButtonKeydown "ArrowUp" songButtons b)
      = FocusButton t) /\
  (exists b,
      In b songButtons /\
      effect (handleSongButtonKeydown "ArrowUp" songButtons t)
      = FocusButton b /\
      effect (handleSongButtonKeydown "ArrowDown" songButtons b)
      = FocusButton t).
Proof.
  intros Hnd Hin.
  apply In_nth_error in Hin as [k Hk].
  assert (Hlt : (k < List.length songButtons)%nat)
    by (apply nth_error_Some; congruence).
  set (n := List.length songButtons) in *.
  destruct (navigation_from songButtons k t Hnd Hk) as (Hd & Hu & _ & _).
  fold n in Hd, Hu.
  split.
  - set (k' := if (S k <? n)%nat then S k else O) in *.
    assert (Hk' : (k' < n)%nat)
      by (subst k'; destruct (S k <? n)%nat eqn:E;
          [apply Nat.ltb_lt in E|]; lia).
    destruct (nth_error songButtons k') as [b|] eqn:Eb.
    2:{ apply nth_error_None in Eb. fold n in Eb. lia. }
    exists b. split; [eapply nth_error_In; exact Eb|].
    rewrite Hd, (focus_item_nat _ _ _ Eb). split; [reflexivity|].
    destruct (navigation_from songButtons k' b Hnd Eb) as (_ & Hu' & _ & _).
    fold n in Hu'. rewrite Hu'.
    assert (Hback : match k' with O => (n - 1)%nat | S j => j end = k).
    { subst k'. destruct (S k <? n)%nat eqn:E; [reflexivity|].
      apply Nat.ltb_ge in E. lia. }
    rewrite Hback. now rewrite (focus_item_nat _ _ _ Hk).
  - set (k' := match k with O => (n - 1)%nat | S j => j end) in *.
    assert (Hk' : (k' < n)%nat) by (subst k'; destruct k; lia).
    destruct (nth_error songButtons k') as [b|] eqn:Eb.
    2:{ apply nth_error_None in Eb. fold n in Eb. lia. }
    exists b. split; [eapply nth_error_In; exact Eb|].
    rewrite Hu, (focus_item_nat _ _ _ Eb). split; [reflexivity|].
    destruct (navigation_from songButtons k' b Hnd Eb) as (Hd' & _ & _ & _).
    fold n in Hd'. rewrite Hd'.
    assert (Hback : (if (S k' <? n)%nat then S k' else O) = k).
    { subst k'. destruct k as [|j].
      - replace (S (n - 1) <? n)%nat with false
          by (symmetry; apply Nat.ltb_ge; lia). reflexivity.
      - replace (S j <? n)%nat with true
          by (symmetry; apply Nat.ltb_lt; lia). reflexivity. }
    rewrite Hback. now rewrite (focus_item_nat _ _ _ Hk).
Qed.

Lemma arrow_keys_are_inverse_witness :
  exists b,
    effect (handleSongButtonKeydown "ArrowDown" [10; 11; 12]%nat 12%nat)
    = FocusButton b /\
    effect (handleSongButtonKeydown "ArrowUp" [10; 11; 12]%nat b)
    = FocusButton 12%nat.
Proof.
  assert (Hnd : NoDup [10; 11; 12]%nat).
  { repeat constructor; simpl; intuition discriminate. }
  assert (Hin : In 12%nat [10; 11; 12]%nat) by (simpl; auto).
  destruct (arrow_keys_are_inverse [10; 11; 12]%nat 12%nat Hnd Hin)
    as [(b & _ & Hd & Hu) _].
  exists b. exact (conj Hd Hu).
Defined.

(** X13.  Whatever key is pressed on whatever element, the handler never
    moves the focus to anything but a song button.  When the list is not
    empty each navigation key does focus a song button, also when the
    element the key was pressed on is not in the list; a key that is
    neither a navigation key nor Enter nor space is left alone. *)
Theorem focus_stays_in_song_list
        (key : string) (songButtons : list nat) (target : nat) :
  (forall b,
      effect (handleSongButtonKeydown key songButtons target) = FocusButton b ->
      In b songButtons) /\
  (songButtons <> [] -> In key navigation_keys ->
   exists b,
     handleSongButtonKeydown key songButtons target
     = mkKeyHandled true (FocusButton b)) /\
  (~ In key navigation_keys -> key <> "Enter" -> key <> " " ->
   handleSongButtonKeydown key songButtons target
   = mkKeyHandled false NoEffect).
Proof.
  assert (Hfocus : forall i b,
             effect (focus_item songButtons i) = FocusButton b ->
             In b songButtons).
  { intros i b. unfold focus_item. simpl.
    destruct (item songButtons i) as [x|] eqn:E; [|discriminate].
    intros H. injection H as <-. eapply item_in. exact E. }
  assert (Hsome : forall i,
             0 <= i < Z.of_nat (List.length songButtons) ->
             exists b, focus_item songButtons i
                       = mkKeyHandled true (FocusButton b)).
  { intros i Hi. destruct (item_some songButtons i Hi) as [x Hx].
    exists x. unfold focus_item. now rewrite Hx. }
  split; [|split].
  - intros b. unfold handleSongButtonKeydown.
    repeat match goal with
           | |- context [if String.eqb key ?s then _ else _] =>
               destruct (String.eqb key s)
           end; try apply Hfocus.
    destruct (String.eqb key "Enter" || String.eqb key " "); discriminate.
  - intros Hne Hkey.
    assert (Hlen : 0 < Z.of_nat (List.length songButtons))
      by (destruct songButtons; [congruence | simpl; lia]).
    pose proof (indexOf_from_range songButtons 0 target) as Hr.
    fold (indexOf target songButtons) in Hr.
    unfold handleSongButtonKeydown.
    destruct Hkey as [<- | [<- | [<- | [<- | []]]]]; simpl String.eqb;
      cbv iota; apply Hsome.
    + destruct (indexOf target songButtons
                <? Z.of_nat (List.length songButtons) - 1) eqn:E;
        [apply Z.ltb_lt in E|]; lia.
    + destruct (indexOf target songButtons >? 0) eqn:E;
        [apply Z.gtb_lt in E|]; lia.
    + lia.
    + lia.
  - intros Hnav Hent Hsp. unfold handleSongButtonKeydown.
    assert (Hneq : forall s, key <> s -> String.eqb key s = false)
      by (intros s; apply String.eqb_neq).
    unfold navigation_keys in Hnav. simpl in Hnav.
    rewrite !Hneq; try reflexivity; try assumption;
      intros ->; apply Hnav; auto.
Qed.

Lemma focus_stays_in_song_list_witness :
  exists b,
    handleSongButtonKeydown "ArrowUp" [10; 11; 12]%nat 99%nat
    = mkKeyHandled true (FocusButton b).
Proof.
  apply (focus_stays_in_song_list "ArrowUp" [10; 11; 12]%nat 99%nat).
  - discriminate.
  - simpl. auto.
Defined.

(** ** Highlighting the current song *)

Lemma has_class_remove (c : string) (l : list string) :
  has_class c (class_remove c l) = false.
Proof.
  unfold has_class, class_remove. induction l as [|x l IH]; simpl.
  - reflexivity.
  - destruct (String.eqb c x) eqn:E; simpl; [exact IH|].
    now rewrite E.
Qed.

Lemma has_class_add (c : string) (l : list string) :
  has_class c (class_add c l) = true.
Proof.
  unfold class_add. destruct (has_class c l) eqn:E; [exact E|].
  unfold has_class. rewrite existsb_app. simpl.
  now rewrite String.eqb_refl, orb_true_r.
Qed.

Lemma highlighted_cons (r : SongRow) (rows : list SongRow) :
  highlighted (r :: rows)
  = if is_active r then data_index r :: highlighted rows
    else highlighted rows.
Proof. unfold highlighted. simpl. now destruct (is_active r). Qed.

Lemma selected_cons (r : SongRow) (rows : list SongRow) :
  selected (r :: rows)
  = if aria_selected r then data_index r :: selected rows
    else selected rows.
Proof. unfold selected. simpl. now destruct (aria_selected r). Qed.

Lemma clear_rows_none (rows : list SongRow) :
  highlighted (clear_rows rows) = [] /\
  selected (clear_rows rows) = [] /\
  map data_index (clear_rows rows) = map data_index rows.
Proof.
  induction rows as [|r rows (IH1 & IH2 & IH3)].
  - repeat split.
  - change (clear_rows (r :: rows))
      with (set_selected false (set_classes (class_remove "active") r)
              :: clear_rows rows).
    rewrite highlighted_cons, selected_cons. unfold is_active. simpl.
    rewrite has_class_remove, IH3. repeat split; assumption.
Qed.

Lemma activate_first (i : Z) (rows : list SongRow) :
  highlighted rows = [] -> selected rows = [] ->
  highlighted (fst (activate i rows)) = (if has_row i rows then [i] else []) /\
  selected (fst (activate i rows)) = (if has_row i rows then [i] else []) /\
  map data_index (fst (activate i rows)) = map data_index rows /\
  snd (activate i rows) = has_row i rows.
Proof.
  induction rows as [|r rows IH]; intros Hh Hs.
  - repeat split.
  - rewrite highlighted_cons in Hh. rewrite selected_cons in Hs.
    destruct (is_active r) eqn:Ea; [discriminate Hh|].
    destruct (aria_selected r) eqn:Er; [discriminate Hs|].
    unfold has_row. cbn [activate existsb].
    destruct (data_index r =? i) eqn:E.
    + apply Z.eqb_eq in E. cbn [fst snd orb].
      rewrite highlighted_cons, selected_cons. unfold is_active. simpl.
      rewrite has_class_add, Hh, Hs, E. repeat split.
    + destruct (IH Hh Hs) as (H1 & H2 & H3 & H4).
      destruct (activate i rows) as [rest found]. cbn [fst snd orb] in *.
      rewrite highlighted_cons, selected_cons, Ea, Er. simpl.
      rewrite H3. repeat split; assumption.
Qed.

Lemma updateActiveSong_rows
        (index : option Z) (song : option Song)
        (rows : list SongRow) (st : option Status) :
  highlighted (fst (updateActiveSong index song rows st))
  = match index with
    | Some i => if has_row i rows then [i] else []
    | None => []
    end /\
  selected (fst (updateActiveSong index song rows st))
  = highlighted (fst (updateActiveSong index song rows st)) /\
  map data_index (fst (updateActiveSong index song rows st))
  = map data_index rows /\
  snd (updateActiveSong index song rows st)
  = match index with
    | Some i => if has_row i rows then updateCurrentSongStatus song st else st
    | None => updateCurrentSongStatus None st
    end.
Proof.
  unfold updateActiveSong.
  destruct (clear_rows_none rows) as (Hh & Hs & Hd).
  destruct index as [i|]; simpl.
  - destruct (activate_first i (clear_rows rows) Hh Hs)
      as (H1 & H2 & H3 & H4).
    assert (Hrow : has_row i (clear_rows rows) = has_row i rows).
    { unfold has_row, clear_rows. clear.
      induction rows as [|r rows IH]; simpl; [reflexivity | now rewrite IH]. }
    rewrite Hrow in *.
    destruct (activate i (clear_rows rows)) as [rows2 found]. simpl in *.
    subst found. destruct (has_row i rows); simpl;
      rewrite H1, H2, H3, Hd; repeat split.
  - rewrite Hh, Hs, Hd. repeat split.
Qed.


(** ** The song list and the click on a song *)

Lemma render_from_nth (songList : list Song) (j : Z) (k : nat) (song : Song) :
  nth_error songList k = Some song ->
  nth_error (render_from j songList) k
  = Some (mkSongRow "option" false (j + Z.of_nat k) "button"
                    (song_button (j + Z.of_nat k) song)).
Proof.
  revert j k. induction songList as [|s l IH]; intros j k Hk.
  - destruct k; discriminate Hk.
  - destruct k as [|k]; cbn [nth_error render_from] in *.
    + injection Hk as ->. change (Z.of_nat 0) with 0.
      now rewrite Z.add_0_r.
    + rewrite (IH (j + 1) k Hk), Nat2Z.inj_succ.
      replace (j + 1 + Z.of_nat k) with (j + Z.succ (Z.of_nat k)) by lia.
      reflexivity.
Qed.

Lemma render_from_length (songList : list Song) (j : Z) :
  List.length (render_from j songList) = List.length songList.
Proof.
  revert j. induction songList as [|s l IH]; intros j; simpl;
    [reflexivity | now rewrite IH].
Qed.

(** X15.  [renderSongList] replaces the container's content by one row
    per song, in order: the [k]-th row carries [data-index = k] and the
    label [Play <title> by <artist>] of the [k]-th song and is not
    highlighted.  A click on that row's button makes the [k]-th song the
    current one: [currentIndex] is [k], the new audio element is created
    from that song's file, and [getCurrentSong] returns it. *)
Theorem rendered_button_plays_its_song
        (container : list SongRow) (w : World) (k : nat) (song : Song) :
  nth_error (songs (self w)) k = Some song ->
  List.length (renderSongList container (songs (self w)))
  = List.length (songs (self w)) /\
  exists r,
    nth_error (renderSongList container (songs (self w))) k = Some r /\
    data_index r = Z.of_nat k /\
    ariaLabel (button r)
    = ("Play " ++ title song ++ " by " ++ artist song)%string /\
    aria_selected r = false /\
    is_active r = false /\
    currentIndex (self (song_click r w)) = Some (Z.of_nat k) /\
    option_map Audio.src (audio (self (song_click r w))) = Some (file song) /\
    getCurrentSong (self (song_click r w)) = Some song.
Proof.
  intros Hk. unfold renderSongList.
  split; [apply render_from_length|].
  exists (mkSongRow "option" false (Z.of_nat k) "button"
                    (song_button (Z.of_nat k) song)).
  split; [apply (render_from_nth _ 0 k song Hk)|].
  do 4 (split; [reflexivity|]).
  assert (Hlt : (k < List.length (songs (self w)))%nat)
    by (apply nth_error_Some; congruence).
  assert (Hv : valid_index (Z.of_nat k) w)
    by (unfold valid_index, songs_length; lia).
  unfold song_click. cbn [data_index].
  destruct (play_valid (Z.of_nat k) false w Hv) as [s [Hs ->]].
  rewrite Nat2Z.id in Hs. rewrite Hk in Hs. injection Hs as <-.
  unfold getCurrentSong. cbn [self currentIndex audio songs option_map started
                               Audio.src].
  replace (Z.of_nat k <? Z.of_nat (Datatypes.length (songs (self w))))
    with true by (symmetry; apply Z.ltb_lt; lia).
  replace (0 <=? Z.of_nat k) with true by (symmetry; apply Z.leb_le; lia).
  rewrite Nat2Z.id. repeat split. exact Hk.
Qed.

Lemma rendered_button_plays_its_song_witness :
  exists r,
    nth_error (renderSongList [] mockSongs) 1 = Some r /\
    data_index r = 1 /\
    getCurrentSong (self (song_click r page)) = Some song2.
Proof.
  destruct (rendered_button_plays_its_song [] page 1 song2 eq_refl)
    as (_ & r & Hr & Hd & _ & _ & _ & _ & _ & Hg).
  exists r. exact (conj Hr (conj Hd Hg)).
Defined.

(** ** The Play All and Mute buttons *)

(** X16.  A click on the Play All button acts on the player's
    [isSequence]: in a reachable state with a non-empty song list it turns
    sequence mode off when it was on, leaving the player stopped with
    ['playbackstopped'] dispatched, and on when it was off, starting at
    index [0].  After the click the button carries the class [playing] and
    the label of the stop action exactly when [isSequence] is true. *)
Theorem playAll_button_toggles
        (songList : list Song) (msg : option string) (ops : list Op)
        (w : World) (b : Button) :
  w = run ops (init songList msg) ->
  songList <> [] ->
  isSequence (self (fst (playAll_click w b))) = negb (isSequence (self w)) /\
  (isSequence (self w) = true ->
   audio (self (fst (playAll_click w b))) = None /\
   currentIndex (self (fst (playAll_click w b))) = None /\
   dispatched (fst (playAll_click w b))
   = (dispatched w ++ [PlaybackStopped])%list) /\
  (isSequence (self w) = false ->
   currentIndex (self (fst (playAll_click w b))) = Some 0) /\
  has_class "playing" (classList (snd (playAll_click w b)))
  = isSequence (self (fst (playAll_click w b))) /\
  ariaLabel (snd (playAll_click w b))
  = (if isSequence (self (fst (playAll_click w b)))
     then "Stop sequential playback"
     else "Play all songs in sequence").
Proof.
  intros Hw Hne.
  assert (Hc : consistent w)
    by (rewrite Hw; apply consistent_run, consistent_init).
  assert (Hs : songs (self w) = songList)
    by (rewrite Hw; apply (songs_run ops (init songList msg))).
  destruct Hc as [_ Hhandle _].
  unfold playAll_click. simpl fst. simpl snd.
  change (st_isSequence (getPlaybackState (self w)))
    with (isSequence (self w)).
  assert (Hbutton : forall w',
             has_class "playing" (classList (updatePlayAllButton (self w') b))
             = isSequence (self w') /\
             ariaLabel (updatePlayAllButton (self w') b)
             = (if isSequence (self w')
                then "Stop sequential playback"
                else "Play all songs in sequence")).
  { intros w'. unfold updatePlayAllButton.
    change (st_isSequence (getPlaybackState (self w')))
      with (isSequence (self w')).
    destruct (isSequence (self w')); simpl;
      [rewrite has_class_add | rewrite has_class_remove]; split; reflexivity. }
  destruct (isSequence (self w)) eqn:Eseq.
  - destruct (audio (self w)) as [a|] eqn:Ha;
      [|destruct (Hhandle eq_refl); reflexivity].
    assert (Hstop : stop w = dispatchEvent PlaybackStopped
                     (update (set_isSequence false)
                        (update (set_currentIndex None) (release a w))))
      by (unfold stop; now rewrite Ha).
    destruct (Hbutton (stop w)) as [Hb1 Hb2].
    rewrite Hb1, Hb2, Hstop. simpl.
    repeat split; intros; discriminate.
  - assert (Hne' : songs (self w) <> []) by now rewrite Hs.
    destruct (playAll_starts w Hne') as (Hi & Hq & _).
    destruct (Hbutton (playAll w)) as [Hb1 Hb2].
    rewrite Hb1, Hb2, Hq, Hi. simpl.
    repeat split; intros; discriminate.
Qed.

Lemma playAll_button_toggles_witness :
  isSequence (self (fst (playAll_click (playAll page)
                                       (mkButton "" [] "")))) = false /\
  has_class "playing"
            (classList (snd (playAll_click page (mkButton "" [] ""))))
  = true.
Proof.
  assert (Hne : mockSongs <> []) by discriminate.
  destruct (playAll_button_toggles mockSongs (Some "") [OpPlayAll]
              (playAll page) (mkButton "" [] "") eq_refl Hne)
    as (Hoff & _).
  destruct (playAll_button_toggles mockSongs (Some "") [] page
              (mkButton "" [] "") eq_refl Hne)
    as (Hon & _ & _ & Hclass & _).
  split; [exact Hoff|]. now rewrite Hclass, Hon.
Defined.

(** X17.  A click on the Mute button negates [isMuted] and leaves the
    stored volume alone; the ['volumechange'] event it dispatches carries
    that stored volume, also when the player is now muted, and the new
    flag.  The audio element, if any, gets the effective level.  After the
    click the button carries the class [muted] and the label of the unmute
    action exactly when the player is muted, and a second click gives the
    player's mute flag and the button's text and label back. *)
Theorem mute_button_toggles (w : World) (b : Button) :
  isMuted (self (fst (fst (mute_click w b)))) = negb (isMuted (self w)) /\
  volume (self (fst (fst (mute_click w b)))) = volume (self w) /\
  detail_volume (snd (mute_click w b)) = volume (self w) /\
  detail_isMuted (snd (mute_click w b)) = negb (isMuted (self w)) /\
  audio (self (fst (fst (mute_click w b))))
  = option_map
      (Audio.set_volume (if isMuted (self w) then volume (self w)
                         else JS.zero))
      (audio (self w)) /\
  has_class "muted" (classList (snd (fst (mute_click w b))))
  = negb (isMuted (self w)) /\
  ariaLabel (snd (fst (mute_click w b)))
  = (if isMuted (self w) then "Mute audio" else "Unmute audio") /\
  isMuted
    (self (fst (fst (mute_click (fst (fst (mute_click w b)))
                                (snd (fst (mute_click w b)))))))
  = isMuted (self w) /\
  textContent
    (snd (fst (mute_click (fst (fst (mute_click w b)))
                          (snd (fst (mute_click w b))))))
  = textContent (updateMuteButton (self w) b) /\
  ariaLabel
    (snd (fst (mute_click (fst (fst (mute_click w b)))
                          (snd (fst (mute_click w b))))))
  = ariaLabel (updateMuteButton (self w) b).
Proof.
  destruct w as [[sl au ci pl mu vo sq] na de pr ti cl di co em].
  unfold mute_click, toggleMute, updateMuteButton.
  destruct mu, au as [a|]; simpl;
    rewrite ?has_class_add, ?has_class_remove; repeat split.
Qed.

(** ** The events the player dispatches *)

Lemma announced_ext (songList : list Song) (w w' : World) :
  songs (self w') = songs (self w) ->
  promises w' = promises w ->
  dispatched w' = dispatched w ->
  announced songList w -> announced songList w'.
Proof.
  intros Es Ep Ed (Hs & Hp & Hd). unfold announced.
  now rewrite Es, Ep, Ed.
Qed.

Lemma announced_play (songList : list Song) (i : Z) (f : bool) (w : World) :
  announced songList w -> announced songList (play i f w).
Proof.
  intros (Hs & Hp & Hd). apply play_cases.
  - intros _. now repeat split.
  - intros song Hv Hsong. unfold announced. simpl. repeat split; try assumption.
    apply Forall_app. split; [exact Hp|].
    constructor; [|constructor]. unfold good_promise. simpl.
    unfold valid_index in Hv. rewrite <- Hs. split; [lia | exact Hsong].
Qed.

Lemma announced_stop (songList : list Song) (w : World) :
  announced songList w -> announced songList (stop w).
Proof.
  intros (Hs & Hp & Hd). unfold stop.
  destruct (audio (self w)) as [a|]; [|now repeat split].
  unfold announced. simpl. repeat split; try assumption.
  apply Forall_app. split; [exact Hd|]. now repeat constructor.
Qed.

Lemma in_remove_nth {A : Type} (n : nat) (l : list A) (x : A) :
  In x (remove_nth n l) -> In x l.
Proof.
  revert n. induction l as [|y l IH]; intros n H.
  - destruct n; contradiction.
  - destruct n as [|n]; simpl in *; [now right|].
    destruct H as [-> | H]; [now left | right; eapply IH; exact H].
Qed.

Lemma announced_settle (songList : list Song) (n : nat) (ok : bool)
      (w : World) :
  announced songList w -> announced songList (settle n ok w).
Proof.
  intros (Hs & Hp & Hd). unfold settle.
  destruct (nth_error (promises w) n) as [pr|] eqn:E; [|now repeat split].
  assert (Hpr : good_promise songList pr).
  { rewrite Forall_forall in Hp. apply Hp. eapply nth_error_In. exact E. }
  assert (Hp' : Forall (good_promise songList) (remove_nth n (promises w))).
  { apply Forall_forall. intros x Hx. rewrite Forall_forall in Hp.
    apply Hp. eapply in_remove_nth. exact Hx. }
  unfold good_promise in Hpr. destruct pr as [a k]. simpl in *.
  destruct k as [index song|], ok; unfold announced; simpl;
    repeat split; try assumption.
  apply Forall_app. split; [exact Hd|]. now repeat constructor.
Qed.

Lemma announced_fire (songList : list Song) (act : TimerAction) (w : World) :
  announced songList w -> announced songList (fire act w).
Proof.
  intros H. destruct act as [song|]; simpl.
  - destruct (errorMsg w) as [text|]; [|exact H].
    destruct (JS.includes (title song) text); [|exact H].
    now apply (announced_ext songList w).
  - now apply announced_play.
Qed.

Lemma announced_step (songList : list Song) (o : Op) (w : World) :
  announced songList w -> announced songList (step o w).
Proof.
  intros H. destruct o; simpl.
  - now apply announced_play.
  - apply (announced_ext songList w); try assumption;
      unfold pause; now split_world w.
  - destruct H as (Hs & Hp & Hd). unfold resume, announced.
    split_world w; repeat split; try assumption;
      apply Forall_app; split; try assumption; now repeat constructor.
  - now apply announced_stop.
  - apply (announced_ext songList w); try assumption;
      unfold setVolume; now split_world w.
  - apply (announced_ext songList w); try assumption;
      unfold mute; now split_world w.
  - apply (announced_ext songList w); try assumption;
      unfold unmute; now split_world w.
  - apply (announced_ext songList w); try assumption;
      unfold toggleMute, mute, unmute; now split_world w.
  - unfold playAll. destruct (songs_length w =? 0).
    + now apply (announced_ext songList w).
    + apply announced_play. now apply (announced_ext songList w).
  - unfold on_ended.
    match goal with
    | |- announced _ (if ?c then _ else _) => destruct c
    end.
    + apply announced_play. now apply (announced_ext songList w).
    + now apply (announced_ext songList w).
  - unfold on_error, handlePlaybackError.
    set (w0 := log ErrAudioError w).
    set (w1 := match errorMsg w0 with Some _ => _ | None => w0 end).
    assert (H1 : announced songList w1).
    { subst w1. destruct (errorMsg w0);
        now apply (announced_ext songList w). }
    clearbody w1.
    match goal with
    | |- announced _ (if ?c then _ else _) => destruct c
    end.
    + now apply (announced_ext songList w1).
    + destruct (isSequence (self w1)); [|exact H1].
      apply announced_stop. now apply (announced_ext songList w1).
  - now apply announced_settle.
  - unfold advance, fire_all.
    apply (fold_fire_keeps _ (announced_fire songList)).
    now apply (announced_ext songList w).
Qed.

Lemma announced_run (songList : list Song) (msg : option string)
      (ops : list Op) :
  announced songList (run ops (init songList msg)).
Proof.
  assert (H : forall w, announced songList w ->
                        announced songList (run ops w)).
  { induction ops as [|o ops IH]; intros w Hw; simpl; [exact Hw|].
    apply IH, announced_step, Hw. }
  apply H. unfold announced. simpl. repeat split; constructor.
Qed.

(** X18.  Every ['songchange'] the player ever dispatches carries an
    index of the song list together with the song at that index, however
    late the start promise behind it resolves. *)
Theorem songchange_names_a_song
        (songList : list Song) (msg : option string) (ops : list Op)
        (index : Z) (song : Song) :
  In (SongChange index song) (dispatched (run ops (init songList msg))) ->
  0 <= index < Z.of_nat (List.length songList) /\
  nth_error songList (Z.to_nat index) = Some song.
Proof.
  intros Hin.
  destruct (announced_run songList msg ops) as (_ & _ & Hd).
  rewrite Forall_forall in Hd. specialize (Hd _ Hin). simpl in Hd.
  destruct Hd as [Hpos Hsong]. split; [|exact Hsong].
  assert ((Z.to_nat index < List.length songList)%nat)
    by (apply nth_error_Some; congruence).
  lia.
Qed.

Lemma songchange_names_a_song_witness :
  nth_error mockSongs (Z.to_nat 0) = Some song1.
Proof.
  apply (songchange_names_a_song mockSongs (Some "")
           [OpPlay 0 false; OpPlay 2 false; OpStop; OpSettle 0 true] 0 song1).
  simpl. auto.
Defined.

(** ** The page after the player's events *)

Lemma has_row_map (i : Z) (rows : list SongRow) :
  has_row i rows = existsb (fun d => d =? i) (map data_index rows).
Proof.
  unfold has_row. induction rows as [|r rows IH]; simpl;
    [reflexivity | now rewrite IH].
Qed.

Lemma has_row_rendered (songList : list Song) (rows : list SongRow)
      (i : Z) (song : Song) :
  map data_index rows = map data_index (render_from 0 songList) ->
  0 <= i -> nth_error songList (Z.to_nat i) = Some song ->
  has_row i rows = true.
Proof.
  intros Hmap Hpos Hsong. rewrite has_row_map, Hmap.
  apply existsb_exists. exists i. split; [|apply Z.eqb_refl].
  apply in_map_iff.
  exists (mkSongRow "option" false (0 + Z.of_nat (Z.to_nat i)) "button"
                    (song_button (0 + Z.of_nat (Z.to_nat i)) song)).
  split; [simpl; lia|].
  eapply nth_error_In. apply render_from_nth. exact Hsong.
Qed.

Lemma replay_shows (songList : list Song) (events : list DomEvent)
      (ui : list SongRow * option Status) (shown : list Z) :
  Forall (good_event songList) events ->
  map data_index (fst ui) = map data_index (render_from 0 songList) ->
  highlighted (fst ui) = shown ->
  selected (fst ui) = shown ->
  highlighted (fst (replay events ui)) = last_shown events shown /\
  selected (fst (replay events ui)) = last_shown events shown.
Proof.
  revert ui shown. induction events as [|e events IH];
    intros ui shown Hgood Hmap Hh Hs.
  - now split.
  - inversion Hgood as [|? ? He Hrest]; subst.
    unfold replay. cbn [fold_left]. fold (replay events (on_dom_event e ui)).
    destruct e as [index song|]; cbn [on_dom_event last_shown].
    + destruct He as [Hpos Hsong].
      destruct (updateActiveSong_rows (Some index) (Some song) (fst ui)
                                      (snd ui)) as (H1 & H2 & H3 & _).
      rewrite (has_row_rendered songList _ index song Hmap Hpos Hsong) in H1.
      apply IH; try assumption; congruence.
    + destruct (updateActiveSong_rows None None (fst ui) (snd ui))
        as (H1 & H2 & H3 & _).
      apply IH; try assumption; congruence.
Qed.

Lemma render_from_plain (songList : list Song) (j : Z) :
  highlighted (render_from j songList) = [] /\
  selected (render_from j songList) = [].
Proof.
  revert j. induction songList as [|s l IH]; intros j.
  - now split.
  - cbn [render_from]. rewrite highlighted_cons, selected_cons.
    destruct (IH (j + 1)) as [Hh Hs]. now rewrite Hh, Hs.
Qed.

(** X19.  Let the listeners of [initSongHighlighting] see, in order, the
    events of any run of the player over the freshly rendered song list.
    Then the one row highlighted is that of the last ['songchange'], and no
    row is highlighted when a ['playbackstopped'] came after it or when
    there was no ['songchange'] at all; [aria-selected] agrees with the
    highlight. *)
Theorem page_highlights_last_song
        (songList : list Song) (msg : option string) (ops : list Op)
        (container : list SongRow) (st : option Status) :
  highlighted
    (fst (replay (dispatched (run ops (init songList msg)))
                 (renderSongList container songList, st)))
  = last_shown (dispatched (run ops (init songList msg))) [] /\
  selected
    (fst (replay (dispatched (run ops (init songList msg)))
                 (renderSongList container songList, st)))
  = last_shown (dispatched (run ops (init songList msg))) [].
Proof.
  destruct (announced_run songList msg ops) as (_ & _ & Hd).
  destruct (render_from_plain songList 0) as [Hh Hs].
  apply (replay_shows songList); try assumption; reflexivity.
Qed.
